(** * Hoard: deterministic encrypted content-addressed storage

    A shallow embedding of the Go sources of hoard
    (hoard/hoard.go, hoard/storage/storage.go, the hoarctl command line
    client and the S3 credentials configuration) together with the
    properties its specification states about them.

    Conventions of the embedding:
    - a Go [[]byte] is an [option (list byte)], [None] being the nil slice;
    - a Go [error] is an [option error], [None] being the nil error, and an
      error value is represented by its message;
    - a Go function returning [(v, err)] returns a pair: nothing in the
      types prevents a value and an error from being returned together;
    - mutable objects (the hasher closed over by the addresser, the
      storage backend, the process streams) are threaded explicitly. *)

From Stdlib Require Import ZArith List Bool Lia String Ascii.
From Stdlib.Strings Require Import Byte.
From stdpp Require Import base option countable gmap.
Import ListNotations.

Local Open Scope Z_scope.

(** ** Go values *)

Definition slice := option (list byte).
Definition error := string.

Definition bytes_of (s : slice) : list byte :=
  match s with Some l => l | None => [] end.

Definition len (s : slice) : nat := length (bytes_of s).

Definition byte_to_Z (b : byte) : Z := Z.of_N (Byte.to_N b).

Definition byte_of_Z (z : Z) : byte :=
  match Byte.of_N (Z.to_N (z mod 256)) with
  | Some b => b
  | None => x00
  end.

(** ** State passing *)

Definition M (W A : Type) : Type := W -> A * W.

Definition ret {W A} (a : A) : M W A := fun w => (a, w).

Definition bind {W A B} (c : M W A) (k : A -> M W B) : M W B :=
  fun w => let (a, w') := c w in k a w'.

Declare Scope go_scope.
Delimit Scope go_scope with go.
Notation "'let*' x := c1 'in' c2" := (bind c1 (fun x => c2))
  (at level 10, x name, c1 at level 100, c2 at level 200) : go_scope.
Notation "'let*' ' pat := c1 'in' c2" :=
  (bind c1 (fun x => match x with pat => c2 end))
  (at level 10, pat pattern, c1 at level 100, c2 at level 200) : go_scope.

(** The results of calling [f] on each element of [l] in turn. *)
Fixpoint each {W A B} (f : A -> M W B) (l : list A) : M W (list B) :=
  match l with
  | [] => ret []
  | a :: l' => fun w =>
      let (b, w') := f a w in
      let (bs, w'') := each f l' w' in
      (b :: bs, w'')
  end.

(** ** crypto/sha256: the digest object behind [sha256.New()] *)

Module Sha256.

Definition chunk : nat := 64.
Definition Size : nat := 32.

Definition word := Z.
Definition u32 (z : Z) : word := z mod 2 ^ 32.
Definition u64 (z : Z) : Z := z mod 2 ^ 64.

Definition state : Type := (word * word * word * word * word * word * word * word)%type.

Definition init : state :=
  (0x6A09E667, 0xBB67AE85, 0x3C6EF372, 0xA54FF53A,
   0x510E527F, 0x9B05688C, 0x1F83D9AB, 0x5BE0CD19).

Definition _K : list word :=
  [0x428A2F98; 0x71374491; 0xB5C0FBCF; 0xE9B5DBA5; 0x3956C25B; 0x59F111F1; 0x923F82A4; 0xAB1C5ED5;
   0xD807AA98; 0x12835B01; 0x243185BE; 0x550C7DC3; 0x72BE5D74; 0x80DEB1FE; 0x9BDC06A7; 0xC19BF174;
   0xE49B69C1; 0xEFBE4786; 0x0FC19DC6; 0x240CA1CC; 0x2DE92C6F; 0x4A7484AA; 0x5CB0A9DC; 0x76F988DA;
   0x983E5152; 0xA831C66D; 0xB00327C8; 0xBF597FC7; 0xC6E00BF3; 0xD5A79147; 0x06CA6351; 0x14292967;
   0x27B70A85; 0x2E1B2138; 0x4D2C6DFC; 0x53380D13; 0x650A7354; 0x766A0ABB; 0x81C2C92E; 0x92722C85;
   0xA2BFE8A1; 0xA81A664B; 0xC24B8B70; 0xC76C51A3; 0xD192E819; 0xD6990624; 0xF40E3585; 0x106AA070;
   0x19A4C116; 0x1E376C08; 0x2748774C; 0x34B0BCB5; 0x391C0CB3; 0x4ED8AA4A; 0x5B9CCA4F; 0x682E6FF3;
   0x748F82EE; 0x78A5636F; 0x84C87814; 0x8CC70208; 0x90BEFFFA; 0xA4506CEB; 0xBEF9A3F7; 0xC67178F2].

(** [v>>n | v<<(32-n)] on a uint32. *)
Definition rotr (n : Z) (v : word) : word :=
  Z.lor (Z.shiftr v n) (u32 (Z.shiftl v (32 - n))).

(** [^e] on a uint32. *)
Definition not32 (v : word) : word := Z.lxor v 0xFFFFFFFF.

(** The digest structure: [h [8]uint32; x [chunk]byte; nx int; len uint64].
    The fixed-size array [x] is a total map from index to byte. *)
Record digest : Type := mkDigest {
  h : state;
  x : nat -> byte;
  nx : nat;
  dlen : Z
}.

Definition Reset (d : digest) : digest :=
  {| h := init; x := x d; nx := 0; dlen := 0 |}.

Definition New : digest :=
  Reset {| h := (0, 0, 0, 0, 0, 0, 0, 0); x := fun _ => x00; nx := 0; dlen := 0 |}.

(** [copy(x[at:], p)] where [n] bytes are copied. *)
Definition copy_at (x : nat -> byte) (at_ n : nat) (p : list byte) : nat -> byte :=
  fun i => if (at_ <=? i)%nat && (i <? at_ + n)%nat then nth (i - at_) p x00 else x i.

(** [x[:]] as a slice of [chunk] bytes. *)
Definition whole (x : nat -> byte) : list byte := map x (seq 0 chunk).

(** First loop of [blockGeneric]: the sixteen big-endian words of a chunk. *)
Fixpoint load_words (n : nat) (p : list byte) : list word :=
  match n with
  | O => []
  | S n' =>
      match p with
      | b0 :: b1 :: b2 :: b3 :: p' =>
          Z.lor (Z.lor (Z.lor (Z.shiftl (byte_to_Z b0) 24) (Z.shiftl (byte_to_Z b1) 16))
                       (Z.shiftl (byte_to_Z b2) 8)) (byte_to_Z b3)
          :: load_words n' p'
      | _ => []
      end
  end.

Definition wnth (w : list word) (i : nat) : word := nth i w 0.

(** Second loop: [w[i]] for [i] from 16 to 63. *)
Fixpoint extend (n : nat) (w : list word) : list word :=
  match n with
  | O => w
  | S n' =>
      let i := length w in
      let v1 := wnth w (i - 2) in
      let t1 := Z.lxor (Z.lxor (rotr 17 v1) (rotr 19 v1)) (Z.shiftr v1 10) in
      let v2 := wnth w (i - 15) in
      let t2 := Z.lxor (Z.lxor (rotr 7 v2) (rotr 18 v2)) (Z.shiftr v2 3) in
      extend n' (w ++ [u32 (t1 + wnth w (i - 7) + t2 + wnth w (i - 16))])
  end.

(** One iteration of the third loop. *)
Definition round (s : state) (k w : word) : state :=
  let '(a, b, c, d, e, f, g, h) := s in
  let t1 := u32 (h + Z.lxor (Z.lxor (rotr 6 e) (rotr 11 e)) (rotr 25 e)
                   + Z.lxor (Z.land e f) (Z.land (not32 e) g) + k + w) in
  let t2 := u32 (Z.lxor (Z.lxor (rotr 2 a) (rotr 13 a)) (rotr 22 a)
                 + Z.lxor (Z.lxor (Z.land a b) (Z.land a c)) (Z.land b c)) in
  (u32 (t1 + t2), a, b, c, u32 (d + t1), e, f, g).

Fixpoint rounds (s : state) (ks ws : list word) : state :=
  match ks, ws with
  | k :: ks', w :: ws' => rounds (round s k w) ks' ws'
  | _, _ => s
  end.

(** The body of the outer loop of [blockGeneric] on one chunk. *)
Definition compress (s : state) (p : list byte) : state :=
  let w := extend 48 (load_words 16 p) in
  let '(h0, h1, h2, h3, h4, h5, h6, h7) := s in
  let '(a, b, c, d, e, f, g, h) := rounds s _K w in
  (u32 (h0 + a), u32 (h1 + b), u32 (h2 + c), u32 (h3 + d),
   u32 (h4 + e), u32 (h5 + f), u32 (h6 + g), u32 (h7 + h)).

(** [for len(p) >= chunk { ...; p = p[chunk:] }]; the loop runs
    [len(p) / chunk] times. *)
Fixpoint block_loop (fuel : nat) (s : state) (p : list byte) : state :=
  match fuel with
  | O => s
  | S fuel' =>
      if (chunk <=? length p)%nat
      then block_loop fuel' (compress s (firstn chunk p)) (skipn chunk p)
      else s
  end.

Definition block (d : digest) (p : list byte) : digest :=
  {| h := block_loop (length p / chunk) (h d) p; x := x d; nx := nx d; dlen := dlen d |}.

(** [Write] in the order of its statements. [d.len += uint64(nn)]: *)
Definition count (p : list byte) (d : digest) : digest :=
  {| h := h d; x := x d; nx := nx d; dlen := u64 (dlen d + Z.of_nat (length p)) |}.

(** [if d.nx > 0 { n := copy(d.x[d.nx:], p); d.nx += n;
      if d.nx == chunk { block(d, d.x[:]); d.nx = 0 }; p = p[n:] }] *)
Definition fill (d : digest) (p : list byte) : digest * list byte :=
  if (0 <? nx d)%nat then
    let n := Nat.min (chunk - nx d) (length p) in
    let d := {| h := h d; x := copy_at (x d) (nx d) n p; nx := (nx d + n)%nat; dlen := dlen d |} in
    let d :=
      if (nx d =? chunk)%nat
      then let d' := block d (whole (x d)) in
           {| h := h d'; x := x d'; nx := 0; dlen := dlen d' |}
      else d in
    (d, skipn n p)
  else (d, p).

(** [if len(p) >= chunk { n := len(p) &^ (chunk - 1); block(d, p[:n]); p = p[n:] }] *)
Definition whole_blocks (d : digest) (p : list byte) : digest * list byte :=
  if (chunk <=? length p)%nat then
    let n := (length p / chunk * chunk)%nat in
    (block d (firstn n p), skipn n p)
  else (d, p).

(** [if len(p) > 0 { d.nx = copy(d.x[:], p) }] *)
Definition keep (d : digest) (p : list byte) : digest :=
  if (0 <? length p)%nat
  then {| h := h d; x := copy_at (x d) 0 (Nat.min chunk (length p)) p;
          nx := Nat.min chunk (length p); dlen := dlen d |}
  else d.

Definition Write (p : list byte) (d : digest) : digest :=
  let d := count p d in
  let '(d, p) := fill d p in
  let '(d, p) := whole_blocks d p in
  keep d p.

(** [binary.BigEndian.PutUint64]. *)
Definition be64 (v : Z) : list byte :=
  map (fun i => byte_of_Z (Z.shiftr v (8 * Z.of_nat (7 - i)))) (seq 0 8).

Definition be32 (v : word) : list byte :=
  map (fun i => byte_of_Z (Z.shiftr v (8 * Z.of_nat (3 - i)))) (seq 0 4).

(** [tmp[0:n]] where [tmp[0] = 0x80] and the rest is zero. *)
Definition padding (n : nat) : list byte :=
  firstn n (x80 :: repeat x00 63).

Definition checkSum (d : digest) : list byte :=
  let l := dlen d in
  let d :=
    if l mod 64 <? 56
    then Write (padding (Z.to_nat (56 - l mod 64))) d
    else Write (padding (Z.to_nat (64 + 56 - l mod 64))) d in
  let d := Write (be64 (u64 (Z.shiftl l 3))) d in
  let '(h0, h1, h2, h3, h4, h5, h6, h7) := h d in
  be32 h0 ++ be32 h1 ++ be32 h2 ++ be32 h3 ++ be32 h4 ++ be32 h5 ++ be32 h6 ++ be32 h7.

(** [Sum] works on a copy of the digest, which therefore is not modified. *)
Definition Sum (b : slice) (d : digest) : slice :=
  Some (bytes_of b ++ checkSum d).

(** Two digests with the same chaining value, the same count and the same
    pending bytes [x[:nx]]; the bytes of [x] past [nx] are left over from
    earlier writes. *)
Definition agree (d d' : digest) : Prop :=
  h d = h d' /\ nx d = nx d' /\ dlen d = dlen d' /\
  forall i, (i < nx d)%nat -> x d i = x d' i.

(** [sha256.Sum256] of the specification: the checksum a freshly
    initialised hasher produces for the data. *)
Definition Sum256 (data : list byte) : list byte :=
  checkSum (Write data New).

End Sha256.

(** ** hash.Hash: the interface [makeAddresser] consumes *)

Module hash.

Class Hash (H : Type) : Type := {
  Reset : H -> H;
  Write : slice -> H -> H;
  Sum : slice -> H -> slice
}.

End hash.

#[export] Instance sha256_Hash : hash.Hash Sha256.digest := {|
  hash.Reset := Sha256.Reset;
  hash.Write := fun p d => Sha256.Write (bytes_of p) d;
  hash.Sum := Sha256.Sum
|}.

(** ** hoard/storage/storage.go *)

Module storage.

Record StatInfo : Type := mkStatInfo {
  Exists : bool;
  Size : Z
}.

(** [Store] gathers [ReadStore], [WriteStore] and [Locator]; every
    method may change the state [S] of the backend. *)
Class Store (S : Type) : Type := {
  Get : slice -> M S (slice * option error);
  Stat : slice -> M S (option StatInfo * option error);
  Put : slice -> slice -> M S (option error);
  Location : slice -> M S string
}.

(** What a content-addressed store acts on: the state [A] its addresser
    closes over and the state [S] of the underlying store. *)
Record World (A S : Type) : Type := mkWorld {
  closure : A;
  backend : S
}.
Arguments mkWorld {A S}.
Arguments closure {A S}.
Arguments backend {A S}.

Definition on_closure {A S X} (c : M A X) : M (World A S) X :=
  fun w => let (r, a) := c (closure w) in (r, mkWorld a (backend w)).

Definition on_backend {A S X} (c : M S X) : M (World A S) X :=
  fun w => let (r, s) := c (backend w) in (r, mkWorld (closure w) s).

Record contentAddressedStore (A S : Type) : Type := mkContentAddressedStore {
  addresser : slice -> M A slice;
  store : Store S
}.
Arguments mkContentAddressedStore {A S}.
Arguments addresser {A S}.
Arguments store {A S}.

Definition NewContentAddressedStore {A S} (addresser : slice -> M A slice)
    (store : Store S) : contentAddressedStore A S :=
  mkContentAddressedStore addresser store.

Module cas.
Section Methods.
Context {A S : Type} (cas : contentAddressedStore A S).
Local Open Scope go_scope.

Definition Address (data : slice) : M (World A S) slice :=
  on_closure (addresser cas data).

Definition Put (data : slice) : M (World A S) (slice * option error) :=
  let* address := on_closure (addresser cas data) in
  let* err := on_backend (@storage.Put S (store cas) address data) in
  ret (address, err).

Definition Get (address : slice) : M (World A S) (slice * option error) :=
  on_backend (@storage.Get S (store cas) address).

Definition Stat (address : slice) : M (World A S) (option StatInfo * option error) :=
  on_backend (@storage.Stat S (store cas) address).

Definition Location (address : slice) : M (World A S) string :=
  on_backend (@storage.Location S (store cas) address).
End Methods.
End cas.

End storage.

(** ** hoard/reference *)

Module reference.

(** Modelled from the spec: package hoard/reference is not part of the
    sources at hand. A reference is the triple (address, secret key,
    salt); hoard.go reads its fields [Address], [SecretKey] and [Salt] and
    builds it with [reference.New(address, secretKey, salt)]. *)
Record Ref : Type := mkRef {
  Address : slice;
  SecretKey : slice;
  Salt : slice
}.

Definition New (address secretKey salt : slice) : Ref :=
  {| Address := address; SecretKey := secretKey; Salt := salt |}.

End reference.

(** ** hoard/hoard.go *)

Module hoard.

(** The primitives [Encrypt] and [Decrypt] of package hoard live in a
    file that is not part of the sources at hand; the facade is
    parameterised by them. [Encrypt] yields a blob with the accessors
    [EncryptedData()] and [SecretKey()]; both primitives are functions of
    their arguments. *)
Class Primitive : Type := {
  blob : Type;
  EncryptedData : blob -> slice;
  SecretKey : blob -> slice;
  Encrypt : slice -> slice -> blob * option error;
  Decrypt : slice -> slice -> slice -> slice * option error
}.

(** [func makeAddresser(hasher hash.Hash) func(data []byte) []byte]: the
    returned closure acts on the hasher it closes over. *)
Definition makeAddresser {H} `{hash.Hash H} : slice -> M H slice :=
  fun data hasher =>
    let hasher := hash.Reset hasher in
    let hasher := hash.Write data hasher in
    (hash.Sum None hasher, hasher).

(** [type hoard struct { store; logger }]; the logger plays no part in
    the operations. *)
Record hoard (A S : Type) : Type := mkHoard {
  store : storage.contentAddressedStore A S
}.
Arguments mkHoard {A S}.
Arguments store {A S}.

Definition NewHoard {S} (store : storage.Store S) : hoard Sha256.digest S :=
  mkHoard (storage.NewContentAddressedStore makeAddresser store).

(** The world a hoard built by [NewHoard] starts in. *)
Definition NewWorld {S} (s : S) : storage.World Sha256.digest S :=
  storage.mkWorld Sha256.New s.

Section Methods.
Context `{Primitive} {A S : Type} (hrd : hoard A S).
Local Open Scope go_scope.

Definition Get (ref : reference.Ref)
  : M (storage.World A S) (slice * option error) :=
  let* '(encryptedData, err) := storage.cas.Get (store hrd) (reference.Address ref) in
  match err with
  | Some e => ret (None, Some e)
  | None =>
      let '(data, err) :=
        Decrypt (reference.SecretKey ref) encryptedData (reference.Salt ref) in
      match err with
      | Some e => ret (None, Some e)
      | None => ret (data, None)
      end
  end.

Definition Put (data salt : slice)
  : M (storage.World A S) (option reference.Ref * option error) :=
  let '(blob, err) := Encrypt data salt in
  match err with
  | Some e => ret (None, Some e)
  | None =>
      let* '(address, err) := storage.cas.Put (store hrd) (EncryptedData blob) in
      match err with
      | Some e => ret (None, Some e)
      | None => ret (Some (reference.New address (SecretKey blob) salt), None)
      end
  end.

Definition Ref (data salt : slice)
  : M (storage.World A S) (option reference.Ref * option error) :=
  let '(blob, err) := Encrypt data salt in
  match err with
  | Some e => ret (None, Some e)
  | None =>
      let* address := storage.cas.Address (store hrd) (EncryptedData blob) in
      ret (Some (reference.New address (SecretKey blob) salt), None)
  end.

Definition Store : storage.contentAddressedStore A S := store hrd.
End Methods.

End hoard.

(** ** encoding/base64: [base64.StdEncoding.DecodeString] *)

Module base64.

(** [decodeMap] of the standard alphabet; [None] stands for the entry
    [0xFF] of characters outside the alphabet. *)
Definition decodeMap (c : byte) : option Z :=
  let n := byte_to_Z c in
  if (65 <=? n) && (n <=? 90) then Some (n - 65)
  else if (97 <=? n) && (n <=? 122) then Some (n - 97 + 26)
  else if (48 <=? n) && (n <=? 57) then Some (n - 48 + 52)
  else if n =? 43 then Some 62
  else if n =? 47 then Some 63
  else None.

Definition padChar : byte := "="%byte.
Definition isPad (c : byte) : bool := byte_to_Z c =? byte_to_Z padChar.
Definition isNewline (c : byte) : bool :=
  (byte_to_Z c =? 10) || (byte_to_Z c =? 13).

(** The error value is [CorruptInputError]; the input offset it carries is
    not represented. *)
Definition CorruptInputError : error := "illegal base64 data"%string.

(** The three bytes of a quantum of four 6-bit values. *)
Definition quantum (d0 d1 d2 d3 : Z) : list byte :=
  let val := Z.lor (Z.lor (Z.lor (Z.shiftl d0 18) (Z.shiftl d1 12)) (Z.shiftl d2 6)) d3 in
  [byte_of_Z (Z.shiftr val 16); byte_of_Z (Z.shiftr val 8); byte_of_Z val].

(** Decoding of the input once the ignored ['\r'] and ['\n'] are skipped:
    quanta of four characters; the last one may end in [=] or [==]; the
    unused low bits of a padded quantum are not checked (the encoding is
    not strict). Returns the bytes decoded and the error. *)
Fixpoint decode (src : list byte) : list byte * option error :=
  match src with
  | [] => ([], None)
  | c0 :: c1 :: c2 :: c3 :: rest =>
      match decodeMap c0, decodeMap c1 with
      | Some d0, Some d1 =>
          match decodeMap c2, decodeMap c3 with
          | Some d2, Some d3 =>
              let (out, err) := decode rest in
              (quantum d0 d1 d2 d3 ++ out, err)
          | Some d2, None =>
              if isPad c3
              then (firstn 2 (quantum d0 d1 d2 0),
                    match rest with [] => None | _ => Some CorruptInputError end)
              else ([], Some CorruptInputError)
          | None, _ =>
              if isPad c2 && isPad c3
              then (firstn 1 (quantum d0 d1 0 0),
                    match rest with [] => None | _ => Some CorruptInputError end)
              else ([], Some CorruptInputError)
          end
      | _, _ => ([], Some CorruptInputError)
      end
  | _ => ([], Some CorruptInputError)
  end.

Definition DecodeString (s : string) : slice * option error :=
  let (out, err) :=
    decode (filter (fun c => negb (isNewline c)) (list_byte_of_string s)) in
  (Some out, err).

End base64.

(** ** The hoarctl command line client *)

Module core.

(** Modelled from the spec: the wire messages of package core (section
    4.6 of the specification), whose Go declarations are not part of the
    sources at hand. *)
Record Plaintext : Type := mkPlaintext { Data : slice; PlaintextSalt : slice }.
Record Reference : Type := mkReference { Address : slice; SecretKey : slice; Salt : slice }.
Record Ciphertext : Type := mkCiphertext { EncryptedData : slice }.
Record ReferenceAndCiphertext : Type :=
  mkReferenceAndCiphertext { Reference_ : Reference; Ciphertext_ : Ciphertext }.
Record Address_ : Type := mkAddress { AddressBytes : slice }.
Record StatInfo : Type := mkStatInfo { Exists : bool; Size : Z }.

End core.

Module hoarctl.

Local Open Scope string_scope.
Infix "+++" := String.append (at level 60, right associativity).

(** The remote calls a run may issue, with their request. *)
Inductive rpc : Type :=
| CleartextPut (p : core.Plaintext)
| CleartextGet (r : core.Reference)
| EncryptionEncrypt (p : core.Plaintext)
| EncryptionDecrypt (rc : core.ReferenceAndCiphertext)
| StorageStat (a : core.Address_)
| StoragePush (c : core.Ciphertext)
| StoragePull (a : core.Address_).

(** Values handed to [json.Marshal]. *)
Inductive jsonValue : Type :=
| JReference (r : core.Reference)
| JStatInfo (s : core.StatInfo)
| JAddress (a : core.Address_).

(** What the run observes of its environment: the content of STDIN as
    [ioutil.ReadAll] returns it, the JSON codec, the listen URL parser,
    the dialer and the answers of the server. *)
Record Env : Type := mkEnv {
  ReadAll_Stdin : slice * option error;
  Marshal : jsonValue -> slice * option error;
  Unmarshal : slice -> core.Reference * option error;
  SplitListenURL : string -> (string * string) * option error;
  Dial : string -> string -> string -> option error;
  cleartext_Put : core.Plaintext -> core.Reference * option error;
  cleartext_Get : core.Reference -> core.Plaintext * option error;
  encryption_Encrypt : core.Plaintext -> core.ReferenceAndCiphertext * option error;
  encryption_Decrypt : core.ReferenceAndCiphertext -> core.Plaintext * option error;
  storage_Stat : core.Address_ -> core.StatInfo * option error;
  storage_Push : core.Ciphertext -> core.Address_ * option error;
  storage_Pull : core.Address_ -> core.Ciphertext * option error
}.

(** What a run leaves behind. *)
Record Process : Type := mkProcess {
  stdout : string;
  stderr : string;
  calls : list rpc
}.

(** A step either hands a value to what follows or ends the process with
    an exit code ([os.Exit]). *)
Inductive outcome (A : Type) : Type :=
| Returned (a : A)
| Exited (code : Z).
Arguments Returned {A}.
Arguments Exited {A}.

Definition Cmd (A : Type) : Type := Process -> outcome A * Process.

Definition pure {A} (a : A) : Cmd A := fun p => (Returned a, p).

Definition andThen {A B} (c : Cmd A) (k : A -> Cmd B) : Cmd B :=
  fun p =>
    match c p with
    | (Returned a, p') => k a p'
    | (Exited code, p') => (Exited code, p')
    end.

Notation "'run' x := c1 'in' c2" := (andThen c1 (fun x => c2))
  (at level 10, x name, c1 at level 100, c2 at level 200).
Notation "'exec' c1 'in' c2" := (andThen c1 (fun _ => c2))
  (at level 10, c1 at level 100, c2 at level 200).

Definition write_stdout (s : string) : Cmd unit :=
  fun p => (Returned tt, mkProcess (stdout p +++ s) (stderr p) (calls p)).

Definition write_stderr (s : string) : Cmd unit :=
  fun p => (Returned tt, mkProcess (stdout p) (stderr p +++ s) (calls p)).

Definition exit {A} (code : Z) : Cmd A := fun p => (Exited code, p).

Definition call {A} (r : rpc) (answer : A) : Cmd A :=
  fun p => (Returned answer, mkProcess (stdout p) (stderr p) (calls p ++ [r])%list).

Definition nl : string := String "010" EmptyString.

(** [fatalf(format, args...)]; [msg] is [format] with [args] filled in. *)
Definition fatalf {A} (msg : string) : Cmd A :=
  exec write_stderr (msg +++ nl) in
  exit 1.

Definition parseSalt (saltString : string) : slice :=
  if String.eqb saltString "" then None
  else
    let '(saltBytes, err) := base64.DecodeString saltString in
    match err with
    | None => saltBytes
    | Some _ => Some (list_byte_of_string saltString)
    end.

Definition readBase64 (base64String : string) : Cmd slice :=
  let '(secretKeyBytes, err) := base64.DecodeString base64String in
  match err with
  | Some _ =>
      exec fatalf (A := unit)
        ("Could not decode '" +++ base64String +++ "' as base64-encoded string") in
      pure secretKeyBytes
  | None => pure secretKeyBytes
  end.

Definition println (s : slice) : Cmd unit :=
  write_stdout (string_of_list_byte (bytes_of s) +++ nl).

(** A step that keeps to the convention of the client: it either hands on
    its value and leaves STDERR alone, or ends the process with code 1
    after one message line on STDERR. *)
Definition reports_or_returns {A} (c : Cmd A) : Prop :=
  forall p,
    match c p with
    | (Returned _, p') => stderr p' = stderr p
    | (Exited code, p') =>
        code = 1 /\ exists msg, stderr p' = stderr p +++ msg +++ nl
    end.

Section Commands.
Variable env : Env.

Definition jsonString (v : jsonValue) : Cmd slice :=
  let '(bs, err) := Marshal env v in
  match err with
  | Some e =>
      exec fatalf (A := unit)
        ("Could not serialise '" +++ e +++ "' to json: %!v(MISSING)") in
      pure bs
  | None => pure bs
  end.

Definition parseReference : core.Reference * option error :=
  let '(bs, err) := ReadAll_Stdin env in
  match err with
  | Some e => (core.mkReference None None None, Some e)
  | None =>
      let '(ref, err) := Unmarshal env bs in
      match err with
      | Some e => (core.mkReference None None None, Some e)
      | None => (ref, None)
      end
  end.

(** [hoarctlApp.Before]. The error of [SplitListenURL] is overwritten
    by the one of [grpc.Dial] before it is inspected. *)
Definition Before (dialURL : string) : Cmd unit :=
  let '((netProtocol, localAddress), _) := SplitListenURL env dialURL in
  match Dial env dialURL netProtocol localAddress with
  | Some e =>
      fatalf ("Could not dial hoard server on " +++ dialURL +++ ": " +++ e)
  | None => pure tt
  end.

Definition readStdin (what : string) : Cmd slice :=
  let '(data, err) := ReadAll_Stdin env in
  match err with
  | Some e => exec fatalf (A := unit) (what +++ e) in pure data
  | None => pure data
  end.

Definition check {A} (what : string) (r : A * option error) : Cmd A :=
  match snd r with
  | Some e => exec fatalf (A := unit) (what +++ e) in pure (fst r)
  | None => pure (fst r)
  end.

Definition put (saltString : string) : Cmd unit :=
  run data := readStdin "Could read bytes from STDIN to store: " in
  let req := core.mkPlaintext data (parseSalt saltString) in
  run r := call (CleartextPut req) (cleartext_Put env req) in
  run ref := check "Error storing data: " r in
  run s := jsonString (JReference ref) in
  println s.

Definition get (address secretKey : option string) (saltString : string) : Cmd unit :=
  run ref :=
    (match address with
     | Some a =>
         if negb (String.eqb a "") then
           exec (match secretKey with
                | Some k =>
                    if String.eqb k ""
                    then fatalf "A secret key must be provided in order to decrypt."
                    else pure tt
                | None => fatalf "A secret key must be provided in order to decrypt."
                end) in
           run addr := readBase64 a in
           run key := readBase64 (match secretKey with Some k => k | None => "" end) in
           pure (core.mkReference addr key (parseSalt saltString))
         else check "Could read reference from STDIN to retrieve: " parseReference
     | None => check "Could read reference from STDIN to retrieve: " parseReference
     end) in
  run r := call (CleartextGet ref) (cleartext_Get env ref) in
  run plaintext := check "Error retrieving data: " r in
  write_stdout (string_of_list_byte (bytes_of (core.Data plaintext))).

Definition ref (saltString : string) : Cmd unit :=
  run data := readStdin "Could read bytes from STDIN to store: " in
  let req := core.mkPlaintext data (parseSalt saltString) in
  run r := call (EncryptionEncrypt req) (encryption_Encrypt env req) in
  run refAndCiphertext := check "Error generating reference: " r in
  run s := jsonString (JReference (core.Reference_ refAndCiphertext)) in
  println s.

Definition encrypt (saltString : string) : Cmd unit :=
  run data := readStdin "Could read bytes from STDIN to store: " in
  let req := core.mkPlaintext data (parseSalt saltString) in
  run r := call (EncryptionEncrypt req) (encryption_Encrypt env req) in
  run refAndCiphertext := check "Error encrypting: " r in
  write_stdout (string_of_list_byte
    (bytes_of (core.EncryptedData (core.Ciphertext_ refAndCiphertext)))).

Definition decrypt (secretKey saltString : string) : Cmd unit :=
  run encryptedData := readStdin "Could read bytes from STDIN to store: " in
  run key := readBase64 secretKey in
  let req := core.mkReferenceAndCiphertext
               (core.mkReference None key (parseSalt saltString))
               (core.mkCiphertext encryptedData) in
  run r := call (EncryptionDecrypt req) (encryption_Decrypt env req) in
  run plaintext := check "Error decrypting: " r in
  write_stdout (string_of_list_byte (bytes_of (core.Data plaintext))).

Definition given (address : option string) : option string :=
  match address with
  | Some a => if String.eqb a "" then None else Some a
  | None => None
  end.

Definition stat (address : option string) : Cmd unit :=
  run addressBytes :=
    (match given address with
     | Some a => readBase64 a
     | None =>
         run ref := check "Could read reference from STDIN to retrieve: " parseReference in
         pure (core.Address ref)
     end) in
  let req := core.mkAddress addressBytes in
  run r := call (StorageStat req) (storage_Stat env req) in
  run statInfo := check "Error querying data: " r in
  run s := jsonString (JStatInfo statInfo) in
  println s.

Definition insert : Cmd unit :=
  run data := readStdin "Could read bytes from STDIN to store: " in
  let req := core.mkCiphertext data in
  run r := call (StoragePush req) (storage_Push env req) in
  run address := check "Error querying data: " r in
  run s := jsonString (JAddress address) in
  println s.

Definition cat (address : option string) : Cmd unit :=
  run addressBytes :=
    (match given address with
     | Some a =>
         let '(bs, err) := base64.DecodeString a in
         match err with
         | Some _ =>
             exec fatalf (A := unit)
               ("Could not decode address '" +++ a +++ "' as base64-encoded string") in
             pure bs
         | None => pure bs
         end
     | None =>
         run ref := check "Could read reference from STDIN to retrieve: " parseReference in
         pure (core.Address ref)
     end) in
  let req := core.mkAddress addressBytes in
  run r := call (StoragePull req) (storage_Pull env req) in
  run ciphertext := check "Error querying data: " r in
  write_stdout (string_of_list_byte (bytes_of (core.EncryptedData ciphertext))).

(** The commands of the application and their arguments. *)
Inductive command : Type :=
| PutCmd (saltString : string)
| GetCmd (address secretKey : option string) (saltString : string)
| RefCmd (saltString : string)
| EncryptCmd (saltString : string)
| DecryptCmd (secretKey saltString : string)
| StatCmd (address : option string)
| InsertCmd
| CatCmd (address : option string).

Definition action (c : command) : Cmd unit :=
  match c with
  | PutCmd s => put s
  | GetCmd a k s => get a k s
  | RefCmd s => ref s
  | EncryptCmd s => encrypt s
  | DecryptCmd k s => decrypt k s
  | StatCmd a => stat a
  | InsertCmd => insert
  | CatCmd a => cat a
  end.

(** What [main] does once [hoarctlApp.Run] has accepted the command line
    (see [Run] for the acceptance): the [Before] hook, then the action of
    the command; the exit code of a run that returns from [main] is 0. *)
Definition main (dialURL : string) (c : command) (p : Process) : Z * Process :=
  match (exec Before dialURL in action c) p with
  | (Returned _, p') => (0, p')
  | (Exited code, p') => (code, p')
  end.
End Commands.

(** The environment [env] in which [SplitListenURL] returns the error
    [verdict] says, everything else being the same. *)
Definition withSplitError (env : Env) (verdict : string -> option error) : Env :=
  mkEnv (ReadAll_Stdin env) (Marshal env) (Unmarshal env)
    (fun dialURL => (fst (SplitListenURL env dialURL), verdict dialURL))
    (Dial env) (cleartext_Put env) (cleartext_Get env) (encryption_Encrypt env)
    (encryption_Decrypt env) (storage_Stat env) (storage_Push env) (storage_Pull env).

(** A step that writes nothing on STDOUT and issues no remote call. *)
Definition silent {A} (c : Cmd A) : Prop :=
  forall p, stdout (snd (c p)) = stdout p /\ calls (snd (c p)) = calls p.

(** A step that issues no remote call and, when it ends the process,
    has written nothing on STDOUT. *)
Definition closes {A} (c : Cmd A) : Prop :=
  forall p,
    calls (snd (c p)) = calls p
    /\ forall code, fst (c p) = Exited code -> stdout (snd (c p)) = stdout p.

(** A step that issues one remote call, accepted by [ok], before it
    returns, at most one before it ends the process, and in that case has
    written nothing on STDOUT. *)
Definition one_call {A} (ok : rpc -> bool) (c : Cmd A) : Prop :=
  forall p,
    match c p with
    | (Returned _, p') => exists q, calls p' = (calls p ++ [q])%list /\ ok q = true
    | (Exited _, p') =>
        stdout p' = stdout p
        /\ (calls p' = calls p
            \/ exists q, calls p' = (calls p ++ [q])%list /\ ok q = true)
    end.

(** The remote call each command is built around. *)
Definition serves (c : command) (r : rpc) : bool :=
  match c, r with
  | PutCmd _, CleartextPut _
  | GetCmd _ _ _, CleartextGet _
  | RefCmd _, EncryptionEncrypt _
  | EncryptCmd _, EncryptionEncrypt _
  | DecryptCmd _ _, EncryptionDecrypt _
  | StatCmd _, StorageStat _
  | InsertCmd, StoragePush _
  | CatCmd _, StoragePull _ => true
  | _, _ => false
  end.

(** The remote calls that write to the store of the server. *)
Definition stores (r : rpc) : bool :=
  match r with
  | CleartextPut _ | StoragePush _ => true
  | _ => false
  end.

(** The command line of one of the eight commands: the options and the
    argument it carries, [None] for what is not on the command line. The
    version command is added by [cmd.AddVersionCommand], whose code is not
    part of the sources at hand, and is left out. *)
Inductive commandLine : Type :=
| PutLine (salt : option string)
| GetLine (key salt address : option string)
| RefLine (salt : option string)
| EncryptLine (salt : option string)
| DecryptLine (key salt : option string)
| StatLine (address : option string)
| InsertLine
| CatLine (address : option string).

(** An option or argument that is not on the command line keeps its
    default value, the empty string. *)
Definition value (o : option string) : string :=
  match o with Some s => s | None => "" end.

(** The command a command line stands for when it fits [cmd.Spec]:
    - put, ref, encrypt: [[--salt=...]];
    - get: [[--key=<SECRET_KEY> [--salt=...] ADDRESS]], all or nothing,
      the salt apart;
    - decrypt: [--key=<secret key> [--salt=...]];
    - stat, cat: [[ADDRESS]]; insert: nothing. *)
Definition accepts (line : commandLine) : option command :=
  match line with
  | PutLine salt => Some (PutCmd (value salt))
  | GetLine None None None => Some (GetCmd (Some "") (Some "") "")
  | GetLine (Some k) salt (Some a) => Some (GetCmd (Some a) (Some k) (value salt))
  | GetLine _ _ _ => None
  | RefLine salt => Some (RefCmd (value salt))
  | EncryptLine salt => Some (EncryptCmd (value salt))
  | DecryptLine (Some k) salt => Some (DecryptCmd k (value salt))
  | DecryptLine None _ => None
  | StatLine address => Some (StatCmd (Some (value address)))
  | InsertLine => Some InsertCmd
  | CatLine address => Some (CatCmd (Some (value address)))
  end.

(** [config.DefaultListenAddress], the default of the option [--address]. *)
Definition DefaultListenAddress : string := "tcp://localhost:53431".

(** [hoarctlApp.Run(os.Args)]. The command line library refuses a command
    line that does not fit the Spec of its command: it writes its usage
    text on STDERR ([refusal], whose wording is the library's) and exits
    with code 2, before the [Before] hook and the action are run. *)
Definition Run (refusal : commandLine -> string) (env : Env)
    (address : option string) (line : commandLine) (p : Process) : Z * Process :=
  match accepts line with
  | None => (2, mkProcess (stdout p) (stderr p +++ refusal line) (calls p))
  | Some c =>
      main env (match address with Some dialURL => dialURL | None => DefaultListenAddress end)
        c p
  end.

(** An answer without error. *)
Definition fine {A} (r : A * option error) : bool :=
  match snd r with None => true | Some _ => false end.

(** The dialer accepts the listen address. *)
Definition dials (env : Env) (dialURL : string) : bool :=
  match Dial env dialURL (fst (fst (SplitListenURL env dialURL)))
          (snd (fst (SplitListenURL env dialURL))) with
  | None => true
  | Some _ => false
  end.

(** The reference on STDIN is readable and is JSON. *)
Definition stdinReference (env : Env) : core.Reference * bool :=
  (fst (Unmarshal env (fst (ReadAll_Stdin env))),
   fine (ReadAll_Stdin env) && fine (Unmarshal env (fst (ReadAll_Stdin env)))).

(** Nothing that the command consults fails: STDIN is readable, what is to
    be base64 or JSON is, the key that goes with an address is not empty,
    the server answers without error and its answer can be printed. *)
Definition nothing_fails (env : Env) (c : command) : bool :=
  match c with
  | PutCmd s =>
      fine (ReadAll_Stdin env)
      && (let answer := cleartext_Put env
                          (core.mkPlaintext (fst (ReadAll_Stdin env)) (parseSalt s)) in
          fine answer && fine (Marshal env (JReference (fst answer))))
  | GetCmd a k s =>
      match given a with
      | Some a' =>
          negb (String.eqb (value k) "")
          && fine (base64.DecodeString a')
          && fine (base64.DecodeString (value k))
          && fine (cleartext_Get env
                     (core.mkReference (fst (base64.DecodeString a'))
                        (fst (base64.DecodeString (value k))) (parseSalt s)))
      | None =>
          snd (stdinReference env) && fine (cleartext_Get env (fst (stdinReference env)))
      end
  | RefCmd s =>
      fine (ReadAll_Stdin env)
      && (let answer := encryption_Encrypt env
                          (core.mkPlaintext (fst (ReadAll_Stdin env)) (parseSalt s)) in
          fine answer && fine (Marshal env (JReference (core.Reference_ (fst answer)))))
  | EncryptCmd s =>
      fine (ReadAll_Stdin env)
      && fine (encryption_Encrypt env
                 (core.mkPlaintext (fst (ReadAll_Stdin env)) (parseSalt s)))
  | DecryptCmd k s =>
      fine (ReadAll_Stdin env)
      && fine (base64.DecodeString k)
      && fine (encryption_Decrypt env
                 (core.mkReferenceAndCiphertext
                    (core.mkReference None (fst (base64.DecodeString k)) (parseSalt s))
                    (core.mkCiphertext (fst (ReadAll_Stdin env)))))
  | StatCmd a =>
      match given a with
      | Some a' =>
          fine (base64.DecodeString a')
          && (let answer := storage_Stat env (core.mkAddress (fst (base64.DecodeString a'))) in
              fine answer && fine (Marshal env (JStatInfo (fst answer))))
      | None =>
          snd (stdinReference env)
          && (let answer := storage_Stat env
                              (core.mkAddress (core.Address (fst (stdinReference env)))) in
              fine answer && fine (Marshal env (JStatInfo (fst answer))))
      end
  | InsertCmd =>
      fine (ReadAll_Stdin env)
      && (let answer := storage_Push env (core.mkCiphertext (fst (ReadAll_Stdin env))) in
          fine answer && fine (Marshal env (JAddress (fst answer))))
  | CatCmd a =>
      match given a with
      | Some a' =>
          fine (base64.DecodeString a')
          && fine (storage_Pull env (core.mkAddress (fst (base64.DecodeString a'))))
      | None =>
          snd (stdinReference env)
          && fine (storage_Pull env
                     (core.mkAddress (core.Address (fst (stdinReference env)))))
      end
  end.

End hoarctl.

(** ** The AWS SDK values the S3 configuration builds *)

Module credentials.

Inductive Provider : Type :=
| EnvProvider
| SharedCredentialsProvider (Filename Profile : string)
| StaticProvider (AccessKeyID SecretAccessKey SessionToken : string).

(** [credentials.NewChainCredentials(providers)]: the credentials that
    try the providers in the order of the slice. An element is an
    interface value, [None] being the nil interface. *)
Inductive Credentials : Type :=
| NewChainCredentials (providers : list (option Provider)).

End credentials.

(** ** The S3 storage configuration *)

Module s3config.

Local Open Scope string_scope.
Infix "+++" := String.append (at level 60, right associativity).

Definition EnvProviderName : string := "env".
Definition SharedCredentialsProviderName : string := "shared".
Definition StaticProviderName : string := "static".

Record StaticProviderConfig : Type := mkStaticProviderConfig {
  AccessKeyID : string;
  SecretAccessKey : string;
  SessionToken : string
}.

Record SharedCredentialsProviderConfig : Type := mkSharedCredentialsProviderConfig {
  Filename : string;
  Profile : string
}.

(** The two embedded configurations are pointers, [None] being nil. *)
Record CredentialsProviderConfig : Type := mkCredentialsProviderConfig {
  Provider : string;
  Shared : option SharedCredentialsProviderConfig;
  Static : option StaticProviderConfig
}.

Definition StaticProviderConfig_Provider (spc : option StaticProviderConfig)
  : option credentials.Provider * option error :=
  match spc with
  | None =>
      (None, Some ("Must include static provider config in " +++
                   "order to form static provider."))
  | Some spc =>
      (Some (credentials.StaticProvider
               (AccessKeyID spc) (SecretAccessKey spc) (SessionToken spc)), None)
  end.

Definition SharedCredentialsProviderConfig_Provider
    (scpc : option SharedCredentialsProviderConfig)
  : option credentials.Provider * option error :=
  match scpc with
  | None =>
      (None, Some ("Must include shared credentials provider " +++
                   "config in order to form shared credentials provider."))
  | Some scpc =>
      (Some (credentials.SharedCredentialsProvider (Filename scpc) (Profile scpc)), None)
  end.

(** The [switch] of the loop body: the new values of [provider] and
    [err], the latter being declared outside of the loop. *)
Definition select (cpc : CredentialsProviderConfig) (err : option error)
  : option credentials.Provider * option error :=
  if String.eqb (Provider cpc) EnvProviderName then
    (Some credentials.EnvProvider, err)
  else if String.eqb (Provider cpc) SharedCredentialsProviderName then
    SharedCredentialsProviderConfig_Provider (Shared cpc)
  else if String.eqb (Provider cpc) StaticProviderName then
    StaticProviderConfig_Provider (Static cpc)
  else
    (None, Some ("Credential provider named '" +++ Provider cpc +++
                 "' could not be found")).

(** The [for _, cpc := range cpcs] loop, with its early return. *)
Fixpoint chain_loop (cpcs : list CredentialsProviderConfig)
    (providers : list (option credentials.Provider)) (err : option error)
  : list (option credentials.Provider) + error :=
  match cpcs with
  | [] => inl providers
  | cpc :: cpcs' =>
      let '(provider, err) := select cpc err in
      match err with
      | Some e => inr e
      | None => chain_loop cpcs' (providers ++ [provider])%list err
      end
  end.

Definition AWSCredentialsFromChain (cpcs : list CredentialsProviderConfig)
  : option credentials.Credentials * option error :=
  match chain_loop cpcs [] None with
  | inr e => (None, Some e)
  | inl providers =>
      let creds :=
        if (0 <? length providers)%nat
        then Some (credentials.NewChainCredentials providers)
        else None in
      (creds, None)
  end.

(** The reading of the specification: an entry is acceptable when its
    provider name is one of the three known names and the configuration
    that name calls for is present. *)
Definition acceptable (cpc : CredentialsProviderConfig) : bool :=
  String.eqb (Provider cpc) "env"
  || (String.eqb (Provider cpc) "shared" && bool_decide (is_Some (Shared cpc)))
  || (String.eqb (Provider cpc) "static" && bool_decide (is_Some (Static cpc))).

(** The provider an acceptable entry stands for. *)
Definition provider_of (cpc : CredentialsProviderConfig) : option credentials.Provider :=
  fst (select cpc None).

(** The error an unacceptable entry is answered with. *)
Definition rejection (cpc : CredentialsProviderConfig) : option error :=
  snd (select cpc None).

(** [S3Config]. The chain is a slice of pointers, [None] being nil. *)
Record S3Config : Type := mkS3Config {
  Bucket : string;
  Prefix : string;
  Region : string;
  CredentialsProviderChain : list (option CredentialsProviderConfig)
}.

(** Modelled from the spec: the kinds of backend a storage configuration
    selects; the Go declaration of [StorageType] and of its constant [S3]
    is not part of the sources at hand. *)
Inductive StorageType : Type := Memory | Filesystem | S3.

(** The fields of [StorageConfig] that [NewS3Config] sets; its Go
    declaration is not part of the sources at hand. *)
Record StorageConfig : Type := mkStorageConfig {
  StorageType_ : StorageType;
  AddressEncoding : string;
  S3Config_ : option S3Config
}.

(** A value of the interface [credentials.Provider] as the type switch of
    [ProviderConfig] sees it: one of the three provider types, or a value
    of another type, of which only the rendering by [%s] matters. *)
Inductive anyProvider : Type :=
| Known (p : credentials.Provider)
| Foreign (rendering : string).

Definition ProviderConfig (provider : anyProvider)
  : option CredentialsProviderConfig * option error :=
  match provider with
  | Known credentials.EnvProvider =>
      (Some (mkCredentialsProviderConfig EnvProviderName None None), None)
  | Known (credentials.SharedCredentialsProvider filename profile) =>
      (Some (mkCredentialsProviderConfig SharedCredentialsProviderName
               (Some (mkSharedCredentialsProviderConfig filename profile)) None), None)
  | Known (credentials.StaticProvider accessKeyID secretAccessKey sessionToken) =>
      (Some (mkCredentialsProviderConfig StaticProviderName None
               (Some (mkStaticProviderConfig accessKeyID secretAccessKey sessionToken))), None)
  | Foreign rendering =>
      (None, Some ("Credential provide " +++ rendering +++ " is not recognised"))
  end.

(** The [for _, provider := range providers] loop of [NewS3Config]. *)
Fixpoint configs_loop (providers : list anyProvider)
    (cpConfigs : list (option CredentialsProviderConfig))
  : list (option CredentialsProviderConfig) + error :=
  match providers with
  | [] => inl cpConfigs
  | provider :: providers' =>
      let '(cpConfig, err) := ProviderConfig provider in
      match err with
      | Some e => inr e
      | None => configs_loop providers' (cpConfigs ++ [cpConfig])%list
      end
  end.

Definition NewS3Config (addressEncoding s3Bucket s3Prefix region : string)
    (providers : list anyProvider) : option StorageConfig * option error :=
  match configs_loop providers [] with
  | inr e => (None, Some e)
  | inl cpConfigs =>
      (Some (mkStorageConfig S3 addressEncoding
               (Some (mkS3Config s3Bucket s3Prefix region cpConfigs))), None)
  end.

(** The configuration [ProviderConfig] writes for a provider of one of the
    three known types. *)
Definition config_of (p : credentials.Provider) : CredentialsProviderConfig :=
  match fst (ProviderConfig (Known p)) with
  | Some cpc => cpc
  | None => mkCredentialsProviderConfig "" None None
  end.

End s3config.

(** ** Backends and primitives to run the operations on *)

#[export] Instance byte_eq_dec : EqDecision byte := Byte.byte_eq_dec.
#[export] Instance byte_countable : Countable byte :=
  inj_countable Byte.to_N Byte.of_N Byte.of_to_N.

Module testing.

Local Open Scope string_scope.

(** Modelled from the spec: the in-memory backend, one of the concrete
    stores that live outside of the sources at hand. [put] writes the data
    under the address and overwrites; [get] of an absent address is
    NotFound; [stat] of an absent address is not an error. *)
#[export] Instance memoryStore : storage.Store (gmap (list byte) (list byte)) := {|
  storage.Get := fun address m =>
    match m !! bytes_of address with
    | Some data => ((Some data, None), m)
    | None => ((None, Some "NotFound"), m)
    end;
  storage.Stat := fun address m =>
    match m !! bytes_of address with
    | Some data => ((Some (storage.mkStatInfo true (Z.of_nat (length data))), None), m)
    | None => ((Some (storage.mkStatInfo false 0), None), m)
    end;
  storage.Put := fun address data m => (None, <[bytes_of address := bytes_of data]> m);
  storage.Location := fun address m => ("memory", m)
|}.

(** A backend out of order: every operation answers with an I/O error. *)
Definition brokenStore : storage.Store unit := {|
  storage.Get := fun _ s => ((None, Some "IOError"), s);
  storage.Stat := fun _ s => ((None, Some "IOError"), s);
  storage.Put := fun _ _ s => (Some "IOError", s);
  storage.Location := fun _ s => ("nowhere", s)
|}.

Definition xor_byte (a b : byte) : byte :=
  byte_of_Z (Z.lxor (byte_to_Z a) (byte_to_Z b)).

Fixpoint xor_stream (data key : list byte) (i : nat) : list byte :=
  match data with
  | [] => []
  | b :: data' =>
      xor_byte b (nth (i mod 32) key x00) :: xor_stream data' key (S i)
  end.

(** A stand-in for the primitive: the key is the digest of the data, the
    nonce the digest of the salt, and the cipher a repeating-key xor. *)
Definition xorPrimitive : hoard.Primitive := {|
  hoard.blob := (list byte * list byte)%type;
  hoard.EncryptedData := fun b => Some (fst b);
  hoard.SecretKey := fun b => Some (snd b);
  hoard.Encrypt := fun data salt =>
    let key := Sha256.Sum256 (bytes_of data) in
    let nonce := Sha256.Sum256 (bytes_of salt) in
    ((xor_stream (xor_stream (bytes_of data) key 0) nonce 0, key), None);
  hoard.Decrypt := fun secretKey encryptedData salt =>
    let nonce := Sha256.Sum256 (bytes_of salt) in
    (Some (xor_stream (xor_stream (bytes_of encryptedData) nonce 0)
                      (bytes_of secretKey) 0), None)
|}.

(** A primitive whose cipher refuses to initialise. *)
Definition failingPrimitive : hoard.Primitive := {|
  hoard.blob := unit;
  hoard.EncryptedData := fun _ => None;
  hoard.SecretKey := fun _ => None;
  hoard.Encrypt := fun _ _ => (tt, Some "CryptoError");
  hoard.Decrypt := fun _ _ _ => (None, Some "CryptoError")
|}.

Definition hello : slice := Some (list_byte_of_string "hello world").
Definition pepper : slice := Some (list_byte_of_string "pepper").

(** An environment of the command line client in which nothing fails and
    the server answers with empty messages. *)
Definition quietEnv : hoarctl.Env := {|
  hoarctl.ReadAll_Stdin := (Some [], None);
  hoarctl.Marshal := fun _ => (Some (list_byte_of_string "{}"), None);
  hoarctl.Unmarshal := fun _ => (core.mkReference None None None, None);
  hoarctl.SplitListenURL := fun _ => (("tcp", "localhost:53431"), None);
  hoarctl.Dial := fun _ _ _ => None;
  hoarctl.cleartext_Put := fun _ => (core.mkReference None None None, None);
  hoarctl.cleartext_Get := fun _ => (core.mkPlaintext None None, None);
  hoarctl.encryption_Encrypt := fun _ =>
    (core.mkReferenceAndCiphertext (core.mkReference None None None)
       (core.mkCiphertext None), None);
  hoarctl.encryption_Decrypt := fun _ => (core.mkPlaintext None None, None);
  hoarctl.storage_Stat := fun _ => (core.mkStatInfo false 0, None);
  hoarctl.storage_Push := fun _ => (core.mkAddress None, None);
  hoarctl.storage_Pull := fun _ => (core.mkCiphertext None, None)
|}.

(** The blob and the reference of "hello world" salted with "pepper", and
    the world of a hoard over the in-memory backend once it is stored. *)
Definition helloBlob : list byte * list byte :=
  fst (@hoard.Encrypt xorPrimitive hello pepper).

Definition helloRef : reference.Ref :=
  reference.New (Some (Sha256.Sum256 (fst helloBlob))) (Some (snd helloBlob)) pepper.

Definition helloWorld : storage.World Sha256.digest (gmap (list byte) (list byte)) :=
  snd (@hoard.Put xorPrimitive _ _ (hoard.NewHoard memoryStore) hello pepper
         (hoard.NewWorld ∅)).

(** The environment in which the server answers every call with an
    error, everything else being as in [quietEnv]. *)
Definition deafEnv : hoarctl.Env := {|
  hoarctl.ReadAll_Stdin := (Some [], None);
  hoarctl.Marshal := fun _ => (Some (list_byte_of_string "{}"), None);
  hoarctl.Unmarshal := fun _ => (core.mkReference None None None, None);
  hoarctl.SplitListenURL := fun _ => (("tcp", "localhost:53431"), None);
  hoarctl.Dial := fun _ _ _ => None;
  hoarctl.cleartext_Put := fun _ => (core.mkReference None None None, Some "unavailable");
  hoarctl.cleartext_Get := fun _ => (core.mkPlaintext None None, Some "unavailable");
  hoarctl.encryption_Encrypt := fun _ =>
    (core.mkReferenceAndCiphertext (core.mkReference None None None)
       (core.mkCiphertext None), Some "unavailable");
  hoarctl.encryption_Decrypt := fun _ => (core.mkPlaintext None None, Some "unavailable");
  hoarctl.storage_Stat := fun _ => (core.mkStatInfo false 0, Some "unavailable");
  hoarctl.storage_Push := fun _ => (core.mkAddress None, Some "unavailable");
  hoarctl.storage_Pull := fun _ => (core.mkCiphertext None, Some "unavailable")
|}.

(** A usage text for refused command lines. *)
Definition usage (line : hoarctl.commandLine) : string := "Error: incorrect usage".

Definition idle : hoarctl.Process := hoarctl.mkProcess "" "" [].

End testing.

(** * Properties *)

(** ** The digest does not depend on what earlier uses left in its buffer *)

Module Sha256Facts.
Import Sha256.

#[local] Arguments whole : simpl never.
#[local] Arguments block : simpl never.
#[local] Arguments compress : simpl never.
#[local] Arguments copy_at : simpl never.

Lemma agree_refl d : agree d d.
Proof. repeat split. Qed.

Lemma agree_Reset d d' : agree (Reset d) (Reset d').
Proof. repeat split; simpl; intros; lia. Qed.

Lemma copy_at_agree x1 x2 at_ n p i :
  (forall j, (j < at_)%nat -> x1 j = x2 j) ->
  (i < at_ + n)%nat ->
  copy_at x1 at_ n p i = copy_at x2 at_ n p i.
Proof.
  intros Hx Hi. unfold copy_at.
  destruct (at_ <=? i)%nat eqn:E1; destruct (i <? at_ + n)%nat eqn:E2; simpl; trivial.
  - apply Nat.ltb_ge in E2. lia.
  - apply Nat.leb_gt in E1. auto.
  - apply Nat.leb_gt in E1. auto.
Qed.

Lemma whole_agree x1 x2 :
  (forall j, (j < chunk)%nat -> x1 j = x2 j) -> whole x1 = whole x2.
Proof.
  intros Hx. unfold whole. apply map_ext_in.
  intros i Hi. apply in_seq in Hi. apply Hx. lia.
Qed.

Lemma count_agree p d d' : agree d d' -> agree (count p d) (count p d').
Proof.
  intros (Hh & Hn & Hl & Hx). unfold count.
  repeat split; simpl; auto. now rewrite Hl.
Qed.

Lemma fill_agree p d d' :
  agree d d' ->
  agree (fst (fill d p)) (fst (fill d' p)) /\ snd (fill d p) = snd (fill d' p).
Proof.
  intros (Hh & Hn & Hl & Hx). unfold fill. rewrite <- Hn.
  destruct (0 <? nx d)%nat; cbn [fst snd].
  2: { split; [repeat split; auto | reflexivity]. }
  split; [| reflexivity].
  cbv zeta. cbn [h x nx dlen].
  assert (Hc : forall i, (i < nx d + Nat.min (chunk - nx d) (length p))%nat ->
               copy_at (x d) (nx d) (Nat.min (chunk - nx d) (length p)) p i
               = copy_at (x d') (nx d) (Nat.min (chunk - nx d) (length p)) p i).
  { intros i Hi. apply copy_at_agree; auto. }
  destruct (nx d + Nat.min (chunk - nx d) (length p) =? chunk)%nat eqn:E.
  - apply Nat.eqb_eq in E. rewrite E in Hc.
    unfold agree, block; cbn [h x nx dlen].
    rewrite (whole_agree _ _ Hc), Hh.
    repeat split; auto. intros; lia.
  - unfold agree; cbn [h x nx dlen]. repeat split; auto.
Qed.

Lemma whole_blocks_agree p d d' :
  agree d d' ->
  agree (fst (whole_blocks d p)) (fst (whole_blocks d' p))
  /\ snd (whole_blocks d p) = snd (whole_blocks d' p).
Proof.
  intros (Hh & Hn & Hl & Hx). unfold whole_blocks.
  destruct (chunk <=? length p)%nat; simpl.
  - split; [| reflexivity]. repeat split; simpl; auto. now rewrite Hh.
  - split; [repeat split; auto | reflexivity].
Qed.

Lemma keep_agree p d d' : agree d d' -> agree (keep d p) (keep d' p).
Proof.
  intros (Hh & Hn & Hl & Hx). unfold keep.
  destruct (0 <? length p)%nat; simpl.
  - repeat split; simpl; auto.
    intros i Hi. apply copy_at_agree; [intros; lia | lia].
  - repeat split; auto.
Qed.

Lemma Write_agree p d d' : agree d d' -> agree (Write p d) (Write p d').
Proof.
  intros Hd. unfold Write.
  pose proof (fill_agree p _ _ (count_agree p _ _ Hd)) as [Hf Hp].
  destruct (fill (count p d) p) as [d1 p1], (fill (count p d') p) as [d1' p1'].
  simpl in Hf, Hp. subst p1'.
  pose proof (whole_blocks_agree p1 _ _ Hf) as [Hb Hq].
  destruct (whole_blocks d1 p1) as [d2 p2], (whole_blocks d1' p1) as [d2' p2'].
  simpl in Hb, Hq. subst p2'.
  now apply keep_agree.
Qed.

Lemma checkSum_agree d d' : agree d d' -> checkSum d = checkSum d'.
Proof.
  intros Hd. unfold checkSum.
  assert (Hl : dlen d = dlen d') by apply Hd.
  rewrite <- Hl.
  set (pad := if dlen d mod 64 <? 56
              then padding (Z.to_nat (56 - dlen d mod 64))
              else padding (Z.to_nat (64 + 56 - dlen d mod 64))).
  assert (H1 : (if dlen d mod 64 <? 56
                then Write (padding (Z.to_nat (56 - dlen d mod 64))) d
                else Write (padding (Z.to_nat (64 + 56 - dlen d mod 64))) d)
               = Write pad d) by (unfold pad; now destruct (dlen d mod 64 <? 56)).
  assert (H2 : (if dlen d mod 64 <? 56
                then Write (padding (Z.to_nat (56 - dlen d mod 64))) d'
                else Write (padding (Z.to_nat (64 + 56 - dlen d mod 64))) d')
               = Write pad d') by (unfold pad; now destruct (dlen d mod 64 <? 56)).
  rewrite H1, H2.
  pose proof (Write_agree (be64 (u64 (Z.shiftl (dlen d) 3))) _ _
                (Write_agree pad _ _ Hd)) as (Hh & _).
  now rewrite Hh.
Qed.

(** Whatever the digest went through before, resetting it, writing
    [data] and summing yields the checksum of [data] alone. *)
Lemma Sum_after_Reset (b : slice) (data : list byte) (d : digest) :
  Sum b (Write data (Reset d)) = Some (bytes_of b ++ Sum256 data).
Proof.
  unfold Sum, Sum256. do 2 f_equal.
  apply checkSum_agree, Write_agree, agree_Reset.
Qed.

Lemma length_be32 v : length (be32 v) = 4%nat.
Proof. reflexivity. Qed.

Lemma length_checkSum d : length (checkSum d) = Size.
Proof.
  unfold checkSum.
  destruct (h (Write _ _)) as [[[[[[[h0 h1] h2] h3] h4] h5] h6] h7].
  rewrite !length_app, !length_be32. reflexivity.
Qed.

End Sha256Facts.

(** ** The addresser *)

Module AddresserFacts.

(** One call of the addresser of [NewHoard]. *)
Lemma makeAddresser_call (data : slice) (hasher : Sha256.digest) :
  fst (hoard.makeAddresser data hasher) = Some (Sha256.Sum256 (bytes_of data)).
Proof.
  unfold hoard.makeAddresser; simpl.
  now rewrite Sha256Facts.Sum_after_Reset.
Qed.

(** The addresser does keep the hasher it closes over: the bytes written
    stay in its buffer. *)
Example makeAddresser_keeps_hasher :
  let hasher := snd (hoard.makeAddresser testing.hello Sha256.New) in
  Sha256.nx hasher = 11%nat /\ Sha256.x hasher 0 = "h"%byte.
Proof. split; reflexivity. Qed.

(** The checksums of the digest are those of SHA-256 on the test vectors
    of the standard ("abc", the empty message, a 56 byte message). *)
Example Sum256_abc :
  map byte_to_Z (Sha256.Sum256 (list_byte_of_string "abc")) =
  [0xba; 0x78; 0x16; 0xbf; 0x8f; 0x01; 0xcf; 0xea; 0x41; 0x41; 0x40; 0xde;
   0x5d; 0xae; 0x22; 0x23; 0xb0; 0x03; 0x61; 0xa3; 0x96; 0x17; 0x7a; 0x9c;
   0xb4; 0x10; 0xff; 0x61; 0xf2; 0x00; 0x15; 0xad].
Proof. vm_compute. reflexivity. Qed.

Example Sum256_empty :
  map byte_to_Z (Sha256.Sum256 []) =
  [0xe3; 0xb0; 0xc4; 0x42; 0x98; 0xfc; 0x1c; 0x14; 0x9a; 0xfb; 0xf4; 0xc8;
   0x99; 0x6f; 0xb9; 0x24; 0x27; 0xae; 0x41; 0xe4; 0x64; 0x9b; 0x93; 0x4c;
   0xa4; 0x95; 0x99; 0x1b; 0x78; 0x52; 0xb8; 0x55].
Proof. vm_compute. reflexivity. Qed.

Example Sum256_two_blocks :
  map byte_to_Z (Sha256.Sum256 (list_byte_of_string
    "abcdbcdecdefdefgefghfghighijhijkijkljklmklmnlmnomnopnopq")) =
  [0x24; 0x8d; 0x6a; 0x61; 0xd2; 0x06; 0x38; 0xb8; 0xe5; 0xc0; 0x26; 0x93;
   0x0c; 0x3e; 0x60; 0x39; 0xa3; 0x3c; 0xe4; 0x59; 0x64; 0xff; 0x21; 0x67;
   0xf6; 0xec; 0xed; 0xd4; 0x19; 0xdb; 0x06; 0xc1].
Proof. vm_compute. reflexivity. Qed.

(** C2. The addresser of the core is stateless across calls: whatever
    state the shared hasher is in, and for every sequence of inputs, each
    call returns the checksum a freshly initialised hasher computes for
    the input of that call alone. *)
Theorem makeAddresser_stateless (inputs : list slice) (hasher : Sha256.digest) :
  fst (each hoard.makeAddresser inputs hasher) =
  map (fun data => hash.Sum None (hash.Write data Sha256.New)) inputs.
Proof.
  revert hasher. induction inputs as [| data inputs IH]; intros hasher.
  - reflexivity.
  - cbn [each map].
    pose proof (makeAddresser_call data hasher) as Hcall.
    destruct (hoard.makeAddresser data hasher) as [address hasher'].
    specialize (IH hasher').
    destruct (each hoard.makeAddresser inputs hasher') as [addresses hasher''].
    cbn [fst] in *. subst address. rewrite IH. reflexivity.
Qed.

(** The calls are taken one after the other. Were the steps of two calls
    on the shared hasher to interleave, the first would sum the input of
    both. *)
Example interleaved_calls_share_the_hasher :
  let a := Some (list_byte_of_string "hello ") in
  let b := Some (list_byte_of_string "world") in
  let hasher := hash.Reset (hash.Reset Sha256.New) in
  let hasher := hash.Write b (hash.Write a hasher) in
  hash.Sum None hasher = Some (Sha256.Sum256 (bytes_of testing.hello))
  /\ hash.Sum None hasher <> fst (hoard.makeAddresser a Sha256.New).
Proof. split; [vm_compute; reflexivity | vm_compute; discriminate]. Qed.

End AddresserFacts.

(** ** The content-addressed store *)

Module StorageFacts.
Import storage.

Section ContentAddressed.
Context {A S : Type} (store : contentAddressedStore A S).

Lemma cas_Put_unfold (data : slice) (w : World A S) :
  cas.Put store data w =
  let address := fst (addresser store data (closure w)) in
  let written := @storage.Put S (storage.store store) address data (backend w) in
  ((address, fst written),
   mkWorld (snd (addresser store data (closure w))) (snd written)).
Proof.
  unfold cas.Put, bind, on_closure, on_backend, ret.
  destruct (addresser store data (closure w)) as [address a']. cbn.
  destruct (storage.Put address data (backend w)) as [err s']. reflexivity.
Qed.

Lemma cas_Address_unfold (data : slice) (w : World A S) :
  cas.Address store data w =
  (fst (addresser store data (closure w)),
   mkWorld (snd (addresser store data (closure w))) (backend w)).
Proof.
  unfold cas.Address, on_closure.
  destruct (addresser store data (closure w)); reflexivity.
Qed.

Lemma cas_Get_unfold (address : slice) (w : World A S) :
  cas.Get store address w =
  (fst (@storage.Get S (storage.store store) address (backend w)),
   mkWorld (closure w) (snd (@storage.Get S (storage.store store) address (backend w)))).
Proof.
  unfold cas.Get, on_backend.
  destruct (storage.Get address (backend w)); reflexivity.
Qed.

Lemma cas_Stat_unfold (address : slice) (w : World A S) :
  cas.Stat store address w =
  (fst (@storage.Stat S (storage.store store) address (backend w)),
   mkWorld (closure w) (snd (@storage.Stat S (storage.store store) address (backend w)))).
Proof.
  unfold cas.Stat, on_backend.
  destruct (storage.Stat address (backend w)); reflexivity.
Qed.

(** C3. [Put] computes the address of the data with the addresser,
    writes the data to the underlying store under that address and
    returns that address, which is the one [Address] returns for the
    same data. *)
Theorem Put_writes_at_address (data : slice) (w : World A S) :
  let address := fst (addresser store data (closure w)) in
  let written := @storage.Put S (storage.store store) address data (backend w) in
  fst (cas.Put store data w) = (address, fst written)
  /\ backend (snd (cas.Put store data w)) = snd written
  /\ fst (cas.Address store data w) = address.
Proof.
  rewrite cas_Put_unfold, cas_Address_unfold. cbn. repeat split.
Qed.
End ContentAddressed.

(** The address a store built on the SHA-256 addresser returns is that
    checksum, whatever the outcome of the write. *)
Lemma Put_sha256_address {S} (st : Store S) (data : slice)
    (w : World Sha256.digest S) :
  fst (fst (cas.Put (NewContentAddressedStore hoard.makeAddresser st) data w)) =
  Some (Sha256.Sum256 (bytes_of data)).
Proof.
  rewrite cas_Put_unfold. cbn. apply AddresserFacts.makeAddresser_call.
Qed.

Lemma Address_sha256 {S} (st : Store S) (data : slice)
    (w : World Sha256.digest S) :
  fst (cas.Address (NewContentAddressedStore hoard.makeAddresser st) data w) =
  Some (Sha256.Sum256 (bytes_of data)).
Proof.
  rewrite cas_Address_unfold. cbn. apply AddresserFacts.makeAddresser_call.
Qed.

(** C10. When the write to the underlying store fails, [Put] returns the
    address the addresser computed together with the error; with the
    SHA-256 addresser the address is a non-nil slice of 32 bytes whether
    the write fails or not. *)
Theorem Put_returns_address_with_error :
  (forall (A S : Type) (store : contentAddressedStore A S) (data : slice)
          (w : World A S) (e : error),
      fst (@storage.Put S (storage.store store)
             (fst (addresser store data (closure w))) data (backend w)) = Some e ->
      fst (cas.Put store data w) = (fst (addresser store data (closure w)), Some e))
  /\ (forall (S : Type) (st : Store S) (data : slice) (w : World Sha256.digest S),
      exists address : list byte,
        fst (fst (cas.Put (NewContentAddressedStore hoard.makeAddresser st) data w))
        = Some address
        /\ length address = Sha256.Size).
Proof.
  split.
  - intros A S store data w e He. rewrite cas_Put_unfold. cbn. now rewrite He.
  - intros S st data w. exists (Sha256.Sum256 (bytes_of data)). split.
    + apply Put_sha256_address.
    + apply Sha256Facts.length_checkSum.
Qed.

Lemma Put_returns_address_with_error_witness :
  let store := NewContentAddressedStore hoard.makeAddresser testing.brokenStore in
  let w := hoard.NewWorld tt in
  fst (@storage.Put unit (storage.store store)
         (fst (addresser store testing.hello (closure w))) testing.hello (backend w))
  = Some "IOError"%string
  /\ fst (cas.Put store testing.hello w)
     = (fst (addresser store testing.hello (closure w)), Some "IOError"%string).
Proof.
  intros store w. split.
  - reflexivity.
  - apply (proj1 Put_returns_address_with_error
             Sha256.digest unit store testing.hello w "IOError"%string).
    reflexivity.
Defined.

(** On the in-memory backend a blob that was put is found again at the
    address [Put] returned, and putting it twice stores it once. *)
Lemma Put_then_Get_memory (data : slice)
    (w : World Sha256.digest (gmap (list byte) (list byte))) :
  let store := NewContentAddressedStore hoard.makeAddresser testing.memoryStore in
  let put := cas.Put store data w in
  fst (cas.Get store (fst (fst put)) (snd put)) = (Some (bytes_of data), None)
  /\ backend (snd (cas.Put store data (snd put))) = backend (snd put).
Proof.
  intros store put. subst put.
  rewrite cas_Get_unfold, !cas_Put_unfold. cbn -[hoard.makeAddresser].
  rewrite !AddresserFacts.makeAddresser_call. cbn.
  rewrite lookup_insert_eq, insert_insert_eq. split; reflexivity.
Qed.

End StorageFacts.

(** ** The encrypted store facade *)

Module HoardFacts.
Import storage.

Section Facade.
Context {P : hoard.Primitive} {A S : Type} (hrd : hoard.hoard A S).

Lemma Put_unfold (data salt : slice) (w : World A S) :
  hoard.Put hrd data salt w =
  match hoard.Encrypt data salt with
  | (blob, Some e) => ((None, Some e), w)
  | (blob, None) =>
      match cas.Put (hoard.store hrd) (hoard.EncryptedData blob) w with
      | ((address, Some e), w') => ((None, Some e), w')
      | ((address, None), w') =>
          ((Some (reference.New address (hoard.SecretKey blob) salt), None), w')
      end
  end.
Proof.
  unfold hoard.Put, bind, ret.
  destruct (hoard.Encrypt data salt) as [blob [e |]]; [reflexivity |].
  destruct (cas.Put _ _ w) as [[address [e |]] w']; reflexivity.
Qed.

Lemma Ref_unfold (data salt : slice) (w : World A S) :
  hoard.Ref hrd data salt w =
  match hoard.Encrypt data salt with
  | (blob, Some e) => ((None, Some e), w)
  | (blob, None) =>
      let (address, w') := cas.Address (hoard.store hrd) (hoard.EncryptedData blob) w in
      ((Some (reference.New address (hoard.SecretKey blob) salt), None), w')
  end.
Proof.
  unfold hoard.Ref, bind, ret.
  destruct (hoard.Encrypt data salt) as [blob [e |]]; reflexivity.
Qed.

Lemma Get_unfold (ref : reference.Ref) (w : World A S) :
  hoard.Get hrd ref w =
  match cas.Get (hoard.store hrd) (reference.Address ref) w with
  | ((encryptedData, Some e), w') => ((None, Some e), w')
  | ((encryptedData, None), w') =>
      match hoard.Decrypt (reference.SecretKey ref) encryptedData (reference.Salt ref) with
      | (data, Some e) => ((None, Some e), w')
      | (data, None) => ((data, None), w')
      end
  end.
Proof.
  unfold hoard.Get, bind, ret.
  destruct (cas.Get _ _ w) as [[encryptedData [e |]] w']; [reflexivity |].
  destruct (hoard.Decrypt _ _ _) as [data [e |]]; reflexivity.
Qed.

Lemma Ref_backend (data salt : slice) (w : World A S) :
  backend (snd (hoard.Ref hrd data salt w)) = backend w.
Proof.
  rewrite Ref_unfold.
  destruct (hoard.Encrypt data salt) as [blob [e |]]; [reflexivity |].
  rewrite StorageFacts.cas_Address_unfold. reflexivity.
Qed.

Lemma Stat_same_backend (address : slice) (w w' : World A S) :
  backend w' = backend w ->
  fst (cas.Stat (hoard.store hrd) address w') = fst (cas.Stat (hoard.store hrd) address w).
Proof.
  intros Hb. rewrite !StorageFacts.cas_Stat_unfold. cbn [fst]. now rewrite Hb.
Qed.

(** C5. [Ref] performs no write: the state of the underlying store after
    [Ref] is the one before, so that [Stat] answers at every address, the
    returned one included, what it would have answered before the call. *)
Theorem Ref_writes_nothing (data salt : slice) (w : World A S) :
  backend (snd (hoard.Ref hrd data salt w)) = backend w
  /\ forall address : slice,
       fst (cas.Stat (hoard.store hrd) address (snd (hoard.Ref hrd data salt w)))
       = fst (cas.Stat (hoard.store hrd) address w).
Proof.
  split.
  - apply Ref_backend.
  - intros address. apply Stat_same_backend, Ref_backend.
Qed.

(** C6. [Get] is the fetch of the ciphertext at the address of the
    reference followed by [Decrypt] with the secret key and the salt of the
    reference: when both succeed the decrypted bytes are returned as they
    are, and the world is the one the fetch left. *)
Theorem Get_fetches_then_decrypts (ref : reference.Ref) (w : World A S)
    (encryptedData data : slice) :
  fst (cas.Get (hoard.store hrd) (reference.Address ref) w) = (encryptedData, None) ->
  hoard.Decrypt (reference.SecretKey ref) encryptedData (reference.Salt ref) = (data, None) ->
  hoard.Get hrd ref w =
  ((data, None), snd (cas.Get (hoard.store hrd) (reference.Address ref) w)).
Proof.
  intros Hfetch Hdecrypt. rewrite Get_unfold.
  destruct (cas.Get _ _ w) as [[ct err] w']. cbn [fst snd] in *.
  injection Hfetch as -> ->. now rewrite Hdecrypt.
Qed.

(** C4. An error of [Encrypt], of [Decrypt] or of the store is the error
    [Put], [Get] and [Ref] return, as it is and with a nil payload; a
    failure of [Encrypt] leaves the world of [Put] and [Ref] untouched; and
    no operation ever returns a payload together with an error. *)
Theorem errors_surface_alone :
  (forall data salt w blob e,
      hoard.Encrypt data salt = (blob, Some e) ->
      hoard.Put hrd data salt w = ((None, Some e), w)
      /\ hoard.Ref hrd data salt w = ((None, Some e), w))
  /\ (forall data salt w blob e,
      hoard.Encrypt data salt = (blob, None) ->
      snd (fst (cas.Put (hoard.store hrd) (hoard.EncryptedData blob) w)) = Some e ->
      fst (hoard.Put hrd data salt w) = (None, Some e))
  /\ (forall ref w e,
      snd (fst (cas.Get (hoard.store hrd) (reference.Address ref) w)) = Some e ->
      fst (hoard.Get hrd ref w) = (None, Some e))
  /\ (forall ref w encryptedData data e,
      fst (cas.Get (hoard.store hrd) (reference.Address ref) w) = (encryptedData, None) ->
      hoard.Decrypt (reference.SecretKey ref) encryptedData (reference.Salt ref)
      = (data, Some e) ->
      fst (hoard.Get hrd ref w) = (None, Some e))
  /\ (forall data salt w r e,
      fst (hoard.Put hrd data salt w) = (r, Some e) -> r = None)
  /\ (forall data salt w r e,
      fst (hoard.Ref hrd data salt w) = (r, Some e) -> r = None)
  /\ (forall ref w data e,
      fst (hoard.Get hrd ref w) = (data, Some e) -> data = None).
Proof.
  repeat split.
  - rewrite Put_unfold, H. reflexivity.
  - rewrite Ref_unfold, H. reflexivity.
  - intros data salt w blob e He Hput. rewrite Put_unfold, He.
    destruct (cas.Put _ _ w) as [[address err] w']. cbn [fst snd] in *.
    now subst err.
  - intros ref w e Hget. rewrite Get_unfold.
    destruct (cas.Get _ _ w) as [[ct err] w']. cbn [fst snd] in *.
    now subst err.
  - intros ref w ct data e Hget Hdec. rewrite Get_unfold.
    destruct (cas.Get _ _ w) as [[ct' err] w']. cbn [fst snd] in *.
    injection Hget as -> ->. now rewrite Hdec.
  - intros data salt w r e. rewrite Put_unfold.
    destruct (hoard.Encrypt data salt) as [blob [e' |]]; cbn [fst].
    + now intros [= <- _].
    + destruct (cas.Put _ _ w) as [[address [e' |]] w']; cbn [fst].
      * now intros [= <- _].
      * discriminate.
  - intros data salt w r e. rewrite Ref_unfold.
    destruct (hoard.Encrypt data salt) as [blob [e' |]]; cbn [fst].
    + now intros [= <- _].
    + destruct (cas.Address _ _ w) as [address w']. discriminate.
  - intros ref w data e. rewrite Get_unfold.
    destruct (cas.Get _ _ w) as [[ct [e' |]] w']; cbn [fst].
    + now intros [= <- _].
    + destruct (hoard.Decrypt _ _ _) as [data' [e' |]]; cbn [fst].
      * now intros [= <- _].
      * discriminate.
Qed.

End Facade.

Section NewHoard.
Context {P : hoard.Primitive} {S : Type} (st : Store S).

(** C1. Whatever states the hasher and the backend are in, when [Put]
    returns a reference [Ref] returns one for the same data and salt, and
    the two carry the same address: the checksum of the ciphertext that
    [Encrypt] produces. *)
Theorem Put_Ref_same_address (data salt : slice) (w1 w2 : World Sha256.digest S)
    (r : reference.Ref) :
  fst (fst (hoard.Put (hoard.NewHoard st) data salt w1)) = Some r ->
  exists r' : reference.Ref,
    fst (hoard.Ref (hoard.NewHoard st) data salt w2) = (Some r', None)
    /\ reference.Address r' = reference.Address r.
Proof.
  rewrite Put_unfold, Ref_unfold.
  destruct (hoard.Encrypt data salt) as [blob [e |]]; [discriminate |].
  pose proof (StorageFacts.Put_sha256_address st (hoard.EncryptedData blob) w1) as Hput.
  pose proof (StorageFacts.Address_sha256 st (hoard.EncryptedData blob) w2) as Haddr.
  unfold hoard.NewHoard; cbn [hoard.store].
  destruct (cas.Put _ _ w1) as [[address [e |]] w1']; [discriminate |].
  destruct (cas.Address _ _ w2) as [address' w2'].
  cbn [fst] in *. intros [= <-]. subst address address'.
  eexists. split; reflexivity.
Qed.

End NewHoard.

(** On the in-memory backend: after [Ref], [Stat] at the returned address
    reports that nothing exists there, unless a blob was stored before. *)
Lemma Ref_then_Stat_memory {P : hoard.Primitive} (data salt : slice)
    (w : World Sha256.digest (gmap (list byte) (list byte))) (r : reference.Ref) :
  let hrd := hoard.NewHoard testing.memoryStore in
  fst (fst (hoard.Ref hrd data salt w)) = Some r ->
  backend w !! bytes_of (reference.Address r) = None ->
  fst (cas.Stat (hoard.store hrd) (reference.Address r) (snd (hoard.Ref hrd data salt w)))
  = (Some (mkStatInfo false 0), None).
Proof.
  intros hrd _ Habsent.
  rewrite (Stat_same_backend hrd _ _ _ (Ref_backend hrd data salt w)).
  rewrite StorageFacts.cas_Stat_unfold. cbn. now rewrite Habsent.
Qed.

(** "hello world" on a fresh in-memory hoard: [Ref] changes the hasher it
    shares with [Put] and nothing else, and [Stat] finds nothing at the
    address it returns. *)
Example Ref_on_fresh_memory :
  let hrd := hoard.NewHoard testing.memoryStore in
  let after := @hoard.Ref testing.xorPrimitive _ _ hrd testing.hello testing.pepper
                 (hoard.NewWorld ∅) in
  fst after = (Some testing.helloRef, None)
  /\ Sha256.nx (closure (snd after)) = 11%nat
  /\ fst (cas.Stat (hoard.store hrd) (reference.Address testing.helloRef) (snd after))
     = (Some (mkStatInfo false 0), None).
Proof. vm_compute. repeat split. Qed.

Lemma Put_Ref_same_address_witness :
  let hrd := hoard.NewHoard testing.memoryStore in
  fst (fst (@hoard.Put testing.xorPrimitive _ _ hrd testing.hello testing.pepper
              (hoard.NewWorld ∅))) = Some testing.helloRef
  /\ exists r' : reference.Ref,
       fst (@hoard.Ref testing.xorPrimitive _ _ hrd testing.hello testing.pepper
              testing.helloWorld) = (Some r', None)
       /\ reference.Address r' = reference.Address testing.helloRef.
Proof.
  intros hrd.
  assert (H : fst (fst (@hoard.Put testing.xorPrimitive _ _ hrd testing.hello
                          testing.pepper (hoard.NewWorld ∅))) = Some testing.helloRef)
    by (vm_compute; reflexivity).
  split; [exact H |].
  exact (@Put_Ref_same_address testing.xorPrimitive _ testing.memoryStore
           testing.hello testing.pepper (hoard.NewWorld ∅) testing.helloWorld
           testing.helloRef H).
Defined.

Lemma Get_fetches_then_decrypts_witness :
  let hrd := hoard.NewHoard testing.memoryStore in
  let fetch := cas.Get (hoard.store hrd) (reference.Address testing.helloRef)
                 testing.helloWorld in
  fst fetch = (Some (fst testing.helloBlob), None)
  /\ @hoard.Decrypt testing.xorPrimitive (reference.SecretKey testing.helloRef)
       (Some (fst testing.helloBlob)) (reference.Salt testing.helloRef)
     = (testing.hello, None)
  /\ @hoard.Get testing.xorPrimitive _ _ hrd testing.helloRef testing.helloWorld
     = ((testing.hello, None), snd fetch).
Proof.
  intros hrd fetch.
  assert (H1 : fst fetch = (Some (fst testing.helloBlob), None))
    by (vm_compute; reflexivity).
  assert (H2 : @hoard.Decrypt testing.xorPrimitive (reference.SecretKey testing.helloRef)
                 (Some (fst testing.helloBlob)) (reference.Salt testing.helloRef)
               = (testing.hello, None))
    by (vm_compute; reflexivity).
  split; [exact H1 |]. split; [exact H2 |].
  exact (@Get_fetches_then_decrypts testing.xorPrimitive _ _ hrd testing.helloRef
           testing.helloWorld _ _ H1 H2).
Defined.

Lemma errors_surface_alone_witness :
  let broken := hoard.NewHoard testing.brokenStore in
  let memory := hoard.NewHoard testing.memoryStore in
  let w := hoard.NewWorld tt in
  (@hoard.Put testing.failingPrimitive _ _ broken testing.hello None w
   = ((None, Some "CryptoError"%string), w)
   /\ @hoard.Ref testing.failingPrimitive _ _ broken testing.hello None w
      = ((None, Some "CryptoError"%string), w))
  /\ fst (@hoard.Put testing.xorPrimitive _ _ broken testing.hello testing.pepper w)
     = (None, Some "IOError"%string)
  /\ fst (@hoard.Get testing.xorPrimitive _ _ broken testing.helloRef w)
     = (None, Some "IOError"%string)
  /\ fst (@hoard.Get testing.failingPrimitive _ _ memory testing.helloRef testing.helloWorld)
     = (None, Some "CryptoError"%string).
Proof.
  intros broken memory w.
  destruct (@errors_surface_alone testing.failingPrimitive _ _ broken)
    as (Hencrypt & _).
  destruct (@errors_surface_alone testing.xorPrimitive _ _ broken)
    as (_ & Hput & Hget & _).
  destruct (@errors_surface_alone testing.failingPrimitive _ _ memory)
    as (_ & _ & _ & Hdecrypt & _).
  split; [| split; [| split]].
  - apply (Hencrypt testing.hello None w tt). reflexivity.
  - apply (Hput testing.hello testing.pepper w testing.helloBlob);
      vm_compute; reflexivity.
  - apply Hget. vm_compute; reflexivity.
  - apply (Hdecrypt testing.helloRef testing.helloWorld
             (Some (fst testing.helloBlob)) None);
      vm_compute; reflexivity.
Defined.

End HoardFacts.


(** ** The command line client *)

Module HoarctlFacts.
Import hoarctl.
Local Open Scope string_scope.

Lemma eqb_empty (s : string) : s <> "" -> String.eqb s "" = false.
Proof. intros Hs. now apply String.eqb_neq. Qed.

(** The decoder on the test vectors of RFC 4648, on input broken over
    lines, and on input that is not base64. *)
Example DecodeString_vectors :
  map (fun s => base64.DecodeString s)
    [""; "Zg=="; "Zm8="; "Zm9v"; "Zm9vYg=="; "Zm9vYmE="; "Zm9vYmFy"]
  = map (fun s => (Some (list_byte_of_string s), None))
      [""; "f"; "fo"; "foo"; "foob"; "fooba"; "foobar"].
Proof. vm_compute. reflexivity. Qed.

Example DecodeString_skips_newlines :
  base64.DecodeString (String "Z" (String "m" (String "010" (String "9" (String "v" nl)))))
  = (Some (list_byte_of_string "foo"), None).
Proof. vm_compute. reflexivity. Qed.

Example DecodeString_rejects :
  map (fun s => snd (base64.DecodeString s)) ["Zg"; "Zg="; "Z==="; "Zm9v!"; "Zg==Zg=="; "pepper"]
  = repeat (Some base64.CorruptInputError) 6.
Proof. vm_compute. reflexivity. Qed.

(** C7. [parseSalt] returns a nil salt for the empty string, the base64
    decoding of the string when [base64.StdEncoding] decodes it without
    error, and the bytes of the string itself otherwise. *)
Theorem parseSalt_base64_or_raw (saltString : string) :
  (saltString = "" -> parseSalt saltString = None)
  /\ (saltString <> "" ->
      forall saltBytes,
        base64.DecodeString saltString = (saltBytes, None) ->
        parseSalt saltString = saltBytes)
  /\ (saltString <> "" ->
      forall saltBytes e,
        base64.DecodeString saltString = (saltBytes, Some e) ->
        parseSalt saltString = Some (list_byte_of_string saltString)).
Proof.
  unfold parseSalt. repeat split.
  - now intros ->.
  - intros Hs saltBytes Hd. now rewrite (eqb_empty _ Hs), Hd.
  - intros Hs saltBytes e Hd. now rewrite (eqb_empty _ Hs), Hd.
Qed.

Lemma parseSalt_base64_or_raw_witness :
  parseSalt "" = None
  /\ parseSalt "cGVwcGVy" = Some (list_byte_of_string "pepper")
  /\ parseSalt "pepper" = Some (list_byte_of_string "pepper").
Proof.
  split; [| split].
  - apply (proj1 (parseSalt_base64_or_raw "")). reflexivity.
  - apply (proj1 (proj2 (parseSalt_base64_or_raw "cGVwcGVy"))).
    + discriminate.
    + vm_compute; reflexivity.
  - eapply (proj2 (proj2 (parseSalt_base64_or_raw "pepper"))).
    + discriminate.
    + vm_compute; reflexivity.
Defined.

Section Discipline.
Variable env : Env.

Lemma pure_ok {A} (a : A) : reports_or_returns (pure a).
Proof. intros p. reflexivity. Qed.

Lemma write_stdout_ok (s : string) : reports_or_returns (write_stdout s).
Proof. intros p. reflexivity. Qed.

Lemma call_ok {A} (r : rpc) (answer : A) : reports_or_returns (call r answer).
Proof. intros p. reflexivity. Qed.

Lemma fatalf_unfold {A} (msg : string) (p : Process) :
  @fatalf A msg p = (Exited 1, mkProcess (stdout p) (stderr p +++ msg +++ nl) (calls p)).
Proof. reflexivity. Qed.

Lemma fatalf_ok {A} (msg : string) : reports_or_returns (@fatalf A msg).
Proof. intros p. rewrite fatalf_unfold. split; [reflexivity | now exists msg]. Qed.

Lemma andThen_ok {A B} (c : Cmd A) (k : A -> Cmd B) :
  reports_or_returns c -> (forall a, reports_or_returns (k a)) ->
  reports_or_returns (andThen c k).
Proof.
  intros Hc Hk p. unfold andThen. specialize (Hc p).
  destruct (c p) as [[a | code] p1]; [| exact Hc].
  specialize (Hk a p1). destruct (k a p1) as [[b | code] p2].
  - congruence.
  - rewrite <- Hc. exact Hk.
Qed.

Lemma check_unfold {A} (what : string) (a : A) (e : error) (p : Process) :
  check what (a, Some e) p =
  (Exited 1, mkProcess (stdout p) (stderr p +++ (what +++ e) +++ nl) (calls p)).
Proof. reflexivity. Qed.

Lemma check_ok {A} (what : string) (r : A * option error) :
  reports_or_returns (check what r).
Proof.
  unfold check. destruct (snd r).
  - apply andThen_ok; [apply fatalf_ok | intros; apply pure_ok].
  - apply pure_ok.
Qed.

Lemma readStdin_ok (what : string) : reports_or_returns (readStdin env what).
Proof.
  unfold readStdin. destruct (ReadAll_Stdin env) as [data [e |]].
  - apply andThen_ok; [apply fatalf_ok | intros; apply pure_ok].
  - apply pure_ok.
Qed.

Lemma readBase64_ok (s : string) : reports_or_returns (readBase64 s).
Proof.
  unfold readBase64. destruct (base64.DecodeString s) as [bs [e |]].
  - apply andThen_ok; [apply fatalf_ok | intros; apply pure_ok].
  - apply pure_ok.
Qed.

Lemma jsonString_ok (v : jsonValue) : reports_or_returns (jsonString env v).
Proof.
  unfold jsonString. destruct (Marshal env v) as [bs [e |]].
  - apply andThen_ok; [apply fatalf_ok | intros; apply pure_ok].
  - apply pure_ok.
Qed.

Lemma println_ok (s : slice) : reports_or_returns (println s).
Proof. apply write_stdout_ok. Qed.

Lemma Before_ok (dialURL : string) : reports_or_returns (Before env dialURL).
Proof.
  unfold Before. destruct (SplitListenURL env dialURL) as [[netProtocol localAddress] _].
  destruct (Dial env dialURL netProtocol localAddress).
  - apply fatalf_ok.
  - apply pure_ok.
Qed.

Lemma Before_dial_error (dialURL : string) (e : error) (p : Process) :
  Dial env dialURL (fst (fst (SplitListenURL env dialURL)))
       (snd (fst (SplitListenURL env dialURL))) = Some e ->
  Before env dialURL p =
  (Exited 1,
   mkProcess (stdout p)
     (stderr p +++ ("Could not dial hoard server on " +++ dialURL +++ ": " +++ e) +++ nl)
     (calls p)).
Proof.
  unfold Before. destruct (SplitListenURL env dialURL) as [[netProtocol localAddress] err].
  cbn [fst snd]. now intros ->.
Qed.

Ltac step :=
  first
    [ apply pure_ok | apply write_stdout_ok | apply call_ok | apply fatalf_ok
    | apply check_ok | apply readStdin_ok | apply readBase64_ok
    | apply jsonString_ok | apply println_ok
    | apply andThen_ok; [| intros ?] ].

Lemma action_ok (c : command) : reports_or_returns (action env c).
Proof.
  destruct c as [s | a k s | s | s | k s | a | | a]; cbn [action].
  - unfold put. repeat step.
  - unfold get. step.
    + destruct a as [a |]; [destruct (negb (String.eqb a "")) |]; repeat step.
      destruct k as [k |]; [destruct (String.eqb k "") |]; repeat step.
    + repeat step.
  - unfold ref. repeat step.
  - unfold encrypt. repeat step.
  - unfold decrypt. repeat step.
  - unfold stat. step.
    + destruct (given a); repeat step.
    + repeat step.
  - unfold insert. repeat step.
  - unfold cat. step.
    + destruct (given a) as [a' |]; [| repeat step].
      destruct (base64.DecodeString a') as [bs [e |]]; repeat step.
    + repeat step.
Qed.

Lemma get_without_key (a : string) (key : option string) (saltString : string)
    (p : Process) :
  a <> "" -> key = None \/ key = Some "" ->
  get env (Some a) key saltString p =
  (Exited 1,
   mkProcess (stdout p)
     (stderr p +++ "A secret key must be provided in order to decrypt." +++ nl)
     (calls p)).
Proof.
  intros Ha Hkey. unfold get, andThen. rewrite (eqb_empty _ Ha). cbn [negb].
  destruct Hkey as [-> | ->]; reflexivity.
Qed.

Lemma main_ok (dialURL : string) (c : command) (p : Process) :
  (fst (main env dialURL c p) = 0 /\
   stderr (snd (main env dialURL c p)) = stderr p)
  \/ (fst (main env dialURL c p) = 1 /\
      exists msg, stderr (snd (main env dialURL c p)) = stderr p +++ msg +++ nl).
Proof.
  unfold main.
  pose proof (andThen_ok _ _ (Before_ok dialURL) (fun _ => action_ok c) p) as H.
  destruct (andThen _ _ p) as [[u | code] p']; cbn [fst snd].
  - now left.
  - right. destruct H as [-> H]. now split.
Qed.

End Discipline.

End HoarctlFacts.

(** ** The credentials provider chain *)

Module S3ConfigFacts.
Import s3config.
Local Open Scope string_scope.

Lemma select_acceptable (cpc : CredentialsProviderConfig) :
  acceptable cpc = true ->
  select cpc None = (provider_of cpc, None) /\ is_Some (provider_of cpc).
Proof.
  destruct cpc as [name shared static].
  unfold acceptable, provider_of, select,
    EnvProviderName, SharedCredentialsProviderName, StaticProviderName.
  cbn [Provider Shared Static].
  destruct (String.eqb_spec name "env") as [-> | _]; [now split |].
  destruct (String.eqb_spec name "shared") as [-> | _].
  - destruct shared; cbn; [now split | discriminate].
  - destruct (String.eqb_spec name "static") as [-> | _]; [| discriminate].
    destruct static; cbn; [now split | discriminate].
Qed.

Lemma select_rejected (cpc : CredentialsProviderConfig) :
  acceptable cpc = false ->
  exists e, select cpc None = (None, Some e) /\ rejection cpc = Some e.
Proof.
  destruct cpc as [name shared static].
  unfold acceptable, rejection, select,
    EnvProviderName, SharedCredentialsProviderName, StaticProviderName.
  cbn [Provider Shared Static].
  destruct (String.eqb_spec name "env") as [-> | _]; [discriminate |].
  destruct (String.eqb_spec name "shared") as [-> | _].
  - destruct shared; cbn; [discriminate | eauto].
  - destruct (String.eqb_spec name "static") as [-> | _]; [| cbn; eauto].
    destruct static; cbn; [discriminate | eauto].
Qed.

Lemma chain_loop_accepts (cpcs : list CredentialsProviderConfig)
    (providers : list (option credentials.Provider)) :
  forallb acceptable cpcs = true ->
  chain_loop cpcs providers None = inl (providers ++ map provider_of cpcs)%list.
Proof.
  revert providers. induction cpcs as [| cpc cpcs IH]; intros providers Hall.
  - cbn. now rewrite app_nil_r.
  - cbn in Hall. apply andb_true_iff in Hall as [Hcpc Hall].
    cbn [chain_loop map]. destruct (select_acceptable cpc Hcpc) as [-> _].
    rewrite IH by assumption. now rewrite <- app_assoc.
Qed.

Lemma chain_loop_rejects (pre post : list CredentialsProviderConfig)
    (bad : CredentialsProviderConfig) (providers : list (option credentials.Provider))
    (e : error) :
  forallb acceptable pre = true ->
  select bad None = (None, Some e) ->
  chain_loop (pre ++ bad :: post)%list providers None = inr e.
Proof.
  revert providers. induction pre as [| cpc pre IH]; intros providers Hall Hbad.
  - cbn. now rewrite Hbad.
  - cbn in Hall. apply andb_true_iff in Hall as [Hcpc Hall].
    cbn [app chain_loop]. destruct (select_acceptable cpc Hcpc) as [-> _].
    now apply IH.
Qed.

(** The first entry that is not acceptable, if there is one. *)
Lemma first_rejected (cpcs : list CredentialsProviderConfig) :
  forallb acceptable cpcs = false ->
  exists pre bad post,
    cpcs = (pre ++ bad :: post)%list /\ forallb acceptable pre = true /\ acceptable bad = false.
Proof.
  induction cpcs as [| cpc cpcs IH]; [discriminate |].
  cbn. destruct (acceptable cpc) eqn:Hcpc; cbn.
  - intros Hrest. destruct (IH Hrest) as (pre & bad & post & -> & Hpre & Hbad).
    exists (cpc :: pre), bad, post. cbn. now rewrite Hcpc, Hpre.
  - intros _. now exists [], cpc, cpcs.
Qed.

Lemma accepted_chain (cpcs : list CredentialsProviderConfig) :
  forallb acceptable cpcs = true ->
  AWSCredentialsFromChain cpcs =
  (match cpcs with
   | [] => None
   | _ :: _ => Some (credentials.NewChainCredentials (map provider_of cpcs))
   end, None).
Proof.
  intros Hall. unfold AWSCredentialsFromChain.
  rewrite chain_loop_accepts by assumption. cbn [app].
  destruct cpcs; reflexivity.
Qed.

Lemma rejected_chain (pre post : list CredentialsProviderConfig)
    (bad : CredentialsProviderConfig) :
  forallb acceptable pre = true -> acceptable bad = false ->
  AWSCredentialsFromChain (pre ++ bad :: post)%list = (None, rejection bad)
  /\ is_Some (rejection bad).
Proof.
  intros Hpre Hbad. destruct (select_rejected bad Hbad) as (e & Hsel & Hrej).
  unfold AWSCredentialsFromChain.
  rewrite (chain_loop_rejects pre post bad [] e Hpre Hsel), Hrej. eauto.
Qed.

(** C9. [AWSCredentialsFromChain] answers the empty list with nil
    credentials and no error; it succeeds exactly when every entry is
    acceptable (a provider name among env, shared and static, with the
    configuration the name calls for), and then chains one provider per entry
    in the order of the list; otherwise it returns, with nil credentials,
    the error of the first entry that is not acceptable. *)
Theorem AWSCredentialsFromChain_in_order (cpcs : list CredentialsProviderConfig) :
  (cpcs = [] -> AWSCredentialsFromChain cpcs = (None, None))
  /\ (snd (AWSCredentialsFromChain cpcs) = None <-> forallb acceptable cpcs = true)
  /\ (cpcs <> [] -> forallb acceptable cpcs = true ->
      AWSCredentialsFromChain cpcs =
      (Some (credentials.NewChainCredentials (map provider_of cpcs)), None)
      /\ Forall is_Some (map provider_of cpcs)
      /\ length (map provider_of cpcs) = length cpcs)
  /\ (forall pre bad post,
      cpcs = (pre ++ bad :: post)%list ->
      forallb acceptable pre = true -> acceptable bad = false ->
      AWSCredentialsFromChain cpcs = (None, rejection bad)
      /\ is_Some (rejection bad)).
Proof.
  split; [| split; [| split]].
  - now intros ->.
  - split.
    + intros Hok. destruct (forallb acceptable cpcs) eqn:Hall; [reflexivity |].
      destruct (first_rejected cpcs Hall) as (pre & bad & post & -> & Hpre & Hbad).
      destruct (rejected_chain pre post bad Hpre Hbad) as [Heq [e He]].
      rewrite Heq, He in Hok. discriminate.
    + intros Hall. now rewrite accepted_chain.
  - intros Hne Hall. split; [| split].
    + rewrite accepted_chain by assumption. destruct cpcs; [contradiction | reflexivity].
    + apply Forall_map, Forall_forall. intros cpc Hin.
      apply select_acceptable.
      rewrite forallb_forall in Hall. apply Hall.
      now apply list_elem_of_In.
    + apply length_map.
  - intros pre bad post -> Hpre Hbad. now apply rejected_chain.
Qed.

Lemma AWSCredentialsFromChain_in_order_witness :
  let env := mkCredentialsProviderConfig "env" None None in
  let shared := mkCredentialsProviderConfig "shared"
                  (Some (mkSharedCredentialsProviderConfig "credentials" "default")) None in
  let static := mkCredentialsProviderConfig "static" None None in
  AWSCredentialsFromChain [] = (None, None)
  /\ AWSCredentialsFromChain [env; shared] =
     (Some (credentials.NewChainCredentials
              [Some credentials.EnvProvider;
               Some (credentials.SharedCredentialsProvider "credentials" "default")]),
      None)
  /\ AWSCredentialsFromChain [env; static; shared] =
     (None, Some ("Must include static provider config in order to form static provider.")).
Proof.
  intros env shared static. split; [| split].
  - apply (proj1 (AWSCredentialsFromChain_in_order [])). reflexivity.
  - apply (proj1 (proj1 (proj2 (proj2 (AWSCredentialsFromChain_in_order [env; shared])))
                    ltac:(discriminate) eq_refl)).
  - apply (proj1 (proj2 (proj2 (proj2 (AWSCredentialsFromChain_in_order
                                          [env; static; shared])))
                    [env] static [shared] eq_refl eq_refl eq_refl)).
Defined.

End S3ConfigFacts.

(** ** How the operations of the facade compose *)

Module FacadeComposition.
Import storage.

Section AnyHoard.
Context {P : hoard.Primitive} {A S : Type} (hrd : hoard.hoard A S).

(** X1. Round trip: when the write of [Put] succeeds, the store gives
    back what was just put and [Decrypt] undoes [Encrypt] on the data, then
    [Put] returns a reference and [Get] of that reference yields the data. *)
Theorem Put_then_Get (data salt : slice) (w : World A S) (blob : hoard.blob) :
  let put := cas.Put (hoard.store hrd) (hoard.EncryptedData blob) w in
  hoard.Encrypt data salt = (blob, None) ->
  snd (fst put) = None ->
  fst (cas.Get (hoard.store hrd) (fst (fst put)) (snd put))
  = (hoard.EncryptedData blob, None) ->
  hoard.Decrypt (hoard.SecretKey blob) (hoard.EncryptedData blob) salt = (data, None) ->
  exists r : reference.Ref,
    fst (hoard.Put hrd data salt w) = (Some r, None)
    /\ fst (hoard.Get hrd r (snd (hoard.Put hrd data salt w))) = (data, None).
Proof.
  intros put Henc Hput Hget Hdec. subst put.
  rewrite HoardFacts.Put_unfold, Henc.
  destruct (cas.Put _ _ w) as [[address err] w']. cbn [fst snd] in *. subst err.
  exists (reference.New address (hoard.SecretKey blob) salt). split; [reflexivity |].
  rewrite HoardFacts.Get_unfold. cbn [reference.New reference.Address
    reference.SecretKey reference.Salt fst snd].
  destruct (cas.Get _ address w') as [[ct err] w'']. cbn [fst] in Hget.
  injection Hget as -> ->. now rewrite Hdec.
Qed.

(** X5. Reading never runs the addresser: [Get], [Stat] and [Location] of
    the content-addressed store and [Get] of the facade leave the state the
    addresser closes over as it is, so that what is read is not checked
    against its address. *)
Theorem reads_leave_addresser (address : slice) (ref : reference.Ref) (w : World A S) :
  closure (snd (cas.Get (hoard.store hrd) address w)) = closure w
  /\ closure (snd (cas.Stat (hoard.store hrd) address w)) = closure w
  /\ closure (snd (cas.Location (hoard.store hrd) address w)) = closure w
  /\ closure (snd (hoard.Get hrd ref w)) = closure w.
Proof.
  assert (Hget : forall a, closure (snd (cas.Get (hoard.store hrd) a w)) = closure w).
  { intros a. now rewrite StorageFacts.cas_Get_unfold. }
  repeat split.
  - apply Hget.
  - now rewrite StorageFacts.cas_Stat_unfold.
  - unfold cas.Location, on_backend. now destruct (storage.Location address (backend w)).
  - rewrite HoardFacts.Get_unfold. specialize (Hget (reference.Address ref)).
    destruct (cas.Get _ _ w) as [[ct [e |]] w']; [exact Hget |].
    destruct (hoard.Decrypt _ _ _) as [data [e |]]; exact Hget.
Qed.

End AnyHoard.

Section Sha256Hoard.
Context {P : hoard.Primitive} {S : Type} (st : Store S).

Lemma Put_reference (data salt : slice) (w : World Sha256.digest S) (r : reference.Ref) :
  fst (fst (hoard.Put (hoard.NewHoard st) data salt w)) = Some r ->
  r = reference.New (Some (Sha256.Sum256 (bytes_of (hoard.EncryptedData
                                                    (fst (hoard.Encrypt data salt))))))
        (hoard.SecretKey (fst (hoard.Encrypt data salt))) salt.
Proof.
  rewrite HoardFacts.Put_unfold.
  destruct (hoard.Encrypt data salt) as [blob [e |]]; [discriminate |].
  pose proof (StorageFacts.Put_sha256_address st (hoard.EncryptedData blob) w) as Haddr.
  unfold hoard.NewHoard; cbn [hoard.store fst].
  destruct (cas.Put _ _ w) as [[address [e |]] w']; [discriminate |].
  cbn [fst] in *. subst address. now intros [= <-].
Qed.

(** X2. The reference [Put] returns depends on the data and the salt
    alone: two successful calls, in whatever states of the hasher and of
    the backend, return the same reference, and its address has 32 bytes. *)
Theorem Put_same_reference (data salt : slice) (w1 w2 : World Sha256.digest S)
    (r1 r2 : reference.Ref) :
  fst (fst (hoard.Put (hoard.NewHoard st) data salt w1)) = Some r1 ->
  fst (fst (hoard.Put (hoard.NewHoard st) data salt w2)) = Some r2 ->
  r1 = r2 /\ len (reference.Address r1) = Sha256.Size.
Proof.
  intros H1 H2. apply Put_reference in H1, H2. subst r1 r2.
  split; [reflexivity |]. apply Sha256Facts.length_checkSum.
Qed.

(** X6. The store sees the ciphertext and nothing else: when [Encrypt]
    succeeds, the backend after [Put] is the one a single write of the
    encrypted data under its SHA-256 checksum leaves. *)
Theorem Put_writes_ciphertext_only (data salt : slice) (w : World Sha256.digest S)
    (blob : hoard.blob) :
  hoard.Encrypt data salt = (blob, None) ->
  backend (snd (hoard.Put (hoard.NewHoard st) data salt w)) =
  snd (@storage.Put S st
         (Some (Sha256.Sum256 (bytes_of (hoard.EncryptedData blob))))
         (hoard.EncryptedData blob) (backend w)).
Proof.
  intros Henc. rewrite HoardFacts.Put_unfold, Henc.
  unfold hoard.NewHoard; cbn [hoard.store].
  rewrite StorageFacts.cas_Put_unfold. cbn -[hoard.makeAddresser].
  rewrite AddresserFacts.makeAddresser_call.
  destruct (storage.Put _ _ (backend w)) as [[e |] s']; reflexivity.
Qed.

(** X4. A reference previewed with [Ref] becomes retrievable once the
    ciphertext is pushed through the store that [Store()] hands out: the
    push lands at the previewed address, and [Get] of the reference then
    yields the data. *)
Theorem Ref_then_push_then_Get (data salt : slice) (w0 w : World Sha256.digest S)
    (blob : hoard.blob) (r : reference.Ref) :
  let push := cas.Put (hoard.Store (hoard.NewHoard st)) (hoard.EncryptedData blob) w in
  hoard.Encrypt data salt = (blob, None) ->
  fst (fst (hoard.Ref (hoard.NewHoard st) data salt w0)) = Some r ->
  snd (fst push) = None ->
  fst (cas.Get (hoard.Store (hoard.NewHoard st)) (fst (fst push)) (snd push))
  = (hoard.EncryptedData blob, None) ->
  hoard.Decrypt (hoard.SecretKey blob) (hoard.EncryptedData blob) salt = (data, None) ->
  fst (fst push) = reference.Address r
  /\ fst (hoard.Get (hoard.NewHoard st) r (snd push)) = (data, None).
Proof.
  intros push Henc Href Hput Hget Hdec. subst push.
  rewrite HoardFacts.Ref_unfold, Henc in Href.
  pose proof (StorageFacts.Address_sha256 st (hoard.EncryptedData blob) w0) as Haddr.
  pose proof (StorageFacts.Put_sha256_address st (hoard.EncryptedData blob) w) as Hsum.
  unfold hoard.Store, hoard.NewHoard in *; cbn [hoard.store] in *.
  destruct (cas.Address _ _ w0) as [address0 w0']. cbn [fst] in *.
  injection Href as <-.
  destruct (cas.Put _ _ w) as [[address err] w']. cbn [fst snd] in *.
  subst address address0 err. split; [reflexivity |].
  rewrite HoardFacts.Get_unfold. cbn [reference.New reference.Address
    reference.SecretKey reference.Salt hoard.store].
  destruct (cas.Get _ _ w') as [[ct err] w'']. cbn [fst] in Hget.
  injection Hget as -> ->. now rewrite Hdec.
Qed.

End Sha256Hoard.

(** X3. [Ref] works without the backend: over any two stores, of any
    kind and in any state, it returns the same result, and it fails exactly
    when [Encrypt] fails, with that error. *)
Theorem Ref_ignores_backend {P : hoard.Primitive} {S S' : Type}
    (st : Store S) (st' : Store S') (data salt : slice)
    (w : World Sha256.digest S) (w' : World Sha256.digest S') :
  fst (hoard.Ref (hoard.NewHoard st) data salt w)
  = fst (hoard.Ref (hoard.NewHoard st') data salt w')
  /\ snd (fst (hoard.Ref (hoard.NewHoard st) data salt w))
     = snd (hoard.Encrypt data salt).
Proof.
  rewrite !HoardFacts.Ref_unfold.
  destruct (hoard.Encrypt data salt) as [blob [e |]]; [split; reflexivity |].
  pose proof (StorageFacts.Address_sha256 st (hoard.EncryptedData blob) w) as H1.
  pose proof (StorageFacts.Address_sha256 st' (hoard.EncryptedData blob) w') as H2.
  unfold hoard.NewHoard; cbn [hoard.store].
  destruct (cas.Address _ _ w) as [a1 w1], (cas.Address _ _ w') as [a2 w2].
  cbn [fst snd] in *. subst a1 a2. split; reflexivity.
Qed.

Lemma Put_then_Get_witness :
  exists r : reference.Ref,
    fst (@hoard.Put testing.xorPrimitive _ _ (hoard.NewHoard testing.memoryStore)
           testing.hello testing.pepper (hoard.NewWorld ∅))
    = (Some r, None)
    /\ fst (@hoard.Get testing.xorPrimitive _ _ (hoard.NewHoard testing.memoryStore) r
              (snd (@hoard.Put testing.xorPrimitive _ _
                      (hoard.NewHoard testing.memoryStore)
                      testing.hello testing.pepper (hoard.NewWorld ∅))))
       = (testing.hello, None).
Proof.
  apply (@Put_then_Get testing.xorPrimitive _ _ (hoard.NewHoard testing.memoryStore)
           testing.hello testing.pepper (hoard.NewWorld ∅) testing.helloBlob);
    vm_compute; reflexivity.
Defined.

Lemma Put_same_reference_witness :
  let hrd := hoard.NewHoard testing.memoryStore in
  fst (fst (@hoard.Put testing.xorPrimitive _ _ hrd testing.hello testing.pepper
              (hoard.NewWorld ∅))) = Some testing.helloRef
  /\ fst (fst (@hoard.Put testing.xorPrimitive _ _ hrd testing.hello testing.pepper
                 testing.helloWorld)) = Some testing.helloRef
  /\ testing.helloRef = testing.helloRef
  /\ len (reference.Address testing.helloRef) = Sha256.Size.
Proof.
  intros hrd.
  assert (H1 : fst (fst (@hoard.Put testing.xorPrimitive _ _ hrd testing.hello
                           testing.pepper (hoard.NewWorld ∅))) = Some testing.helloRef)
    by (vm_compute; reflexivity).
  assert (H2 : fst (fst (@hoard.Put testing.xorPrimitive _ _ hrd testing.hello
                           testing.pepper testing.helloWorld)) = Some testing.helloRef)
    by (vm_compute; reflexivity).
  split; [exact H1 |]. split; [exact H2 |].
  exact (@Put_same_reference testing.xorPrimitive _ testing.memoryStore
           testing.hello testing.pepper (hoard.NewWorld ∅) testing.helloWorld
           testing.helloRef testing.helloRef H1 H2).
Defined.

Lemma Put_writes_ciphertext_only_witness :
  backend (snd (@hoard.Put testing.xorPrimitive _ _ (hoard.NewHoard testing.memoryStore)
                  testing.hello testing.pepper (hoard.NewWorld ∅)))
  = snd (@storage.Put _ testing.memoryStore
           (Some (Sha256.Sum256 (fst testing.helloBlob)))
           (Some (fst testing.helloBlob)) ∅).
Proof.
  apply (@Put_writes_ciphertext_only testing.xorPrimitive _ testing.memoryStore
           testing.hello testing.pepper (hoard.NewWorld ∅) testing.helloBlob).
  reflexivity.
Defined.

Lemma Ref_then_push_then_Get_witness :
  let push := cas.Put (hoard.Store (hoard.NewHoard testing.memoryStore))
                (@hoard.EncryptedData testing.xorPrimitive testing.helloBlob)
                (hoard.NewWorld ∅) in
  fst (fst push) = reference.Address testing.helloRef
  /\ fst (@hoard.Get testing.xorPrimitive _ _ (hoard.NewHoard testing.memoryStore)
            testing.helloRef (snd push))
     = (testing.hello, None).
Proof.
  apply (@Ref_then_push_then_Get testing.xorPrimitive _ testing.memoryStore
           testing.hello testing.pepper (hoard.NewWorld ∅) (hoard.NewWorld ∅)
           testing.helloBlob testing.helloRef);
    vm_compute; reflexivity.
Defined.

End FacadeComposition.


(** ** From providers to a configuration and back *)

Module ProviderChain.
Import s3config.
Local Open Scope string_scope.

Lemma ProviderConfig_Known (p : credentials.Provider) :
  ProviderConfig (Known p) = (Some (config_of p), None)
  /\ acceptable (config_of p) = true
  /\ provider_of (config_of p) = Some p.
Proof. destruct p; repeat split. Qed.

Lemma configs_loop_Known (ps : list credentials.Provider)
    (cpConfigs : list (option CredentialsProviderConfig)) :
  configs_loop (map Known ps) cpConfigs
  = inl (cpConfigs ++ map Some (map config_of ps))%list.
Proof.
  revert cpConfigs. induction ps as [| p ps IH]; intros cpConfigs.
  - cbn. now rewrite app_nil_r.
  - cbn [map configs_loop]. destruct (ProviderConfig_Known p) as (-> & _ & _).
    rewrite IH. now rewrite <- app_assoc.
Qed.

Lemma configs_loop_Foreign (pre : list credentials.Provider) (rendering : string)
    (post : list anyProvider) (cpConfigs : list (option CredentialsProviderConfig)) :
  configs_loop (map Known pre ++ Foreign rendering :: post)%list cpConfigs
  = inr ("Credential provide " +++ rendering +++ " is not recognised").
Proof.
  revert cpConfigs. induction pre as [| p pre IH]; intros cpConfigs.
  - reflexivity.
  - cbn [map app configs_loop]. destruct (ProviderConfig_Known p) as (-> & _ & _).
    apply IH.
Qed.

(** X7. Round trip: the configuration [NewS3Config] writes for providers
    of the three known types has one non-nil entry per provider, and
    [AWSCredentialsFromChain] reads its chain back into credentials that
    chain the same providers in the same order (nil credentials when there
    is no provider). *)
Theorem NewS3Config_round_trip (addressEncoding s3Bucket s3Prefix region : string)
    (ps : list credentials.Provider) :
  exists cpcs : list CredentialsProviderConfig,
    NewS3Config addressEncoding s3Bucket s3Prefix region (map Known ps)
    = (Some (mkStorageConfig S3 addressEncoding
               (Some (mkS3Config s3Bucket s3Prefix region (map Some cpcs)))), None)
    /\ length cpcs = length ps
    /\ AWSCredentialsFromChain cpcs
       = (match ps with
          | [] => None
          | _ :: _ => Some (credentials.NewChainCredentials (map Some ps))
          end, None).
Proof.
  exists (map config_of ps). split; [| split].
  - unfold NewS3Config. now rewrite configs_loop_Known.
  - apply length_map.
  - assert (Hall : forallb acceptable (map config_of ps) = true).
    { apply forallb_forall. intros cpc Hin. apply in_map_iff in Hin as (p & <- & _).
      apply ProviderConfig_Known. }
    rewrite (S3ConfigFacts.accepted_chain _ Hall).
    assert (Hmap : map provider_of (map config_of ps) = map Some ps).
    { rewrite map_map. apply map_ext. intros p. apply ProviderConfig_Known. }
    rewrite Hmap. destruct ps; reflexivity.
Qed.

(** X8. [NewS3Config] gives up at the first provider that is of none of
    the three known types: it returns a nil configuration and the error
    naming that provider, whatever follows it in the list. *)
Theorem NewS3Config_rejects_foreign (addressEncoding s3Bucket s3Prefix region : string)
    (pre : list credentials.Provider) (rendering : string) (post : list anyProvider) :
  NewS3Config addressEncoding s3Bucket s3Prefix region
    (map Known pre ++ Foreign rendering :: post)%list
  = (None, Some ("Credential provide " +++ rendering +++ " is not recognised")).
Proof.
  unfold NewS3Config. now rewrite configs_loop_Foreign.
Qed.

End ProviderChain.


(** ** What a run of the client leaves behind *)

Module ClientRuns.
Import hoarctl.
Local Open Scope string_scope.

Section Runs.
Variable env : Env.

Lemma pure_silent {A} (a : A) : silent (pure a).
Proof. intros p. split; reflexivity. Qed.

Lemma fatalf_silent {A} (msg : string) : silent (@fatalf A msg).
Proof. intros p. split; reflexivity. Qed.

Lemma andThen_silent {A B} (c : Cmd A) (k : A -> Cmd B) :
  silent c -> (forall a, silent (k a)) -> silent (andThen c k).
Proof.
  intros Hc Hk p. unfold andThen. specialize (Hc p).
  destruct (c p) as [[a | code] p1]; cbn [snd] in *; [| exact Hc].
  destruct (Hk a p1) as [Ho Hl]. destruct Hc as [Ho1 Hl1]. split; congruence.
Qed.

Lemma guarded_silent {A} (msg : error -> string) (a : A) (err : option error) :
  silent (match err with
          | Some e => andThen (@fatalf unit (msg e)) (fun _ => pure a)
          | None => pure a
          end).
Proof.
  destruct err.
  - apply andThen_silent; [apply fatalf_silent | intros; apply pure_silent].
  - apply pure_silent.
Qed.

Lemma check_silent {A} (what : string) (r : A * option error) : silent (check what r).
Proof. unfold check. apply (guarded_silent (fun e => what +++ e)). Qed.

Lemma readStdin_silent (what : string) : silent (readStdin env what).
Proof.
  unfold readStdin. destruct (ReadAll_Stdin env) as [data err].
  apply (guarded_silent (fun e => what +++ e)).
Qed.

Lemma readBase64_silent (s : string) : silent (readBase64 s).
Proof.
  unfold readBase64. destruct (base64.DecodeString s) as [bs err].
  apply (guarded_silent (fun _ => "Could not decode '" +++ s +++ "' as base64-encoded string")).
Qed.

Lemma jsonString_silent (v : jsonValue) : silent (jsonString env v).
Proof.
  unfold jsonString. destruct (Marshal env v) as [bs err].
  apply (guarded_silent (fun e => "Could not serialise '" +++ e +++ "' to json: %!v(MISSING)")).
Qed.

Lemma Before_silent (dialURL : string) : silent (Before env dialURL).
Proof.
  unfold Before. destruct (SplitListenURL env dialURL) as [[netProtocol localAddress] _].
  destruct (Dial env dialURL netProtocol localAddress).
  - apply fatalf_silent.
  - apply pure_silent.
Qed.

Lemma silent_closes {A} (c : Cmd A) : silent c -> closes c.
Proof. intros Hc p. destruct (Hc p) as [Ho Hl]. split; [exact Hl | intros; exact Ho]. Qed.

Lemma write_stdout_closes (s : string) : closes (write_stdout s).
Proof. intros p. split; [reflexivity | discriminate]. Qed.

Lemma andThen_closes {A B} (c : Cmd A) (k : A -> Cmd B) :
  silent c -> (forall a, closes (k a)) -> closes (andThen c k).
Proof.
  intros Hc Hk p. unfold andThen. destruct (Hc p) as [Ho Hl].
  destruct (c p) as [[a | code] p1]; cbn [fst snd] in *.
  - destruct (Hk a p1) as [Hl2 Ho2]. split; [congruence |].
    intros code Hcode. rewrite (Ho2 code Hcode). exact Ho.
  - split; [exact Hl | intros; exact Ho].
Qed.

Lemma call_then {A B} (ok : rpc -> bool) (q : rpc) (answer : A) (k : A -> Cmd B) :
  ok q = true -> (forall a, closes (k a)) -> one_call ok (andThen (call q answer) k).
Proof.
  intros Hq Hk p. unfold andThen, call.
  destruct (Hk answer (mkProcess (stdout p) (stderr p) (calls p ++ [q])%list))
    as [Hl Ho].
  destruct (k answer _) as [[b | code] p2]; cbn [fst snd stdout calls] in *.
  - eauto.
  - split; [now apply (Ho code) | eauto].
Qed.

Lemma andThen_one_call {A B} (ok : rpc -> bool) (c : Cmd A) (k : A -> Cmd B) :
  silent c -> (forall a, one_call ok (k a)) -> one_call ok (andThen c k).
Proof.
  intros Hc Hk p. unfold andThen. destruct (Hc p) as [Ho Hl].
  destruct (c p) as [[a | code] p1]; cbn [fst snd] in *.
  - specialize (Hk a p1). destruct (k a p1) as [[b | code] p2].
    + now rewrite <- Hl.
    + now rewrite <- Hl, <- Ho.
  - split; [exact Ho | now left].
Qed.

Ltac quiet :=
  first
    [ apply pure_silent | apply fatalf_silent | apply check_silent
    | apply readStdin_silent | apply readBase64_silent | apply jsonString_silent
    | apply andThen_silent; [| intros ?] ].

Ltac finish :=
  first
    [ apply write_stdout_closes
    | apply andThen_closes; [repeat quiet | intros ?] ].

Ltac serve :=
  cbv zeta;
  first
    [ apply call_then; [reflexivity | intros ?; repeat finish]
    | apply andThen_one_call; [| intros ?] ].

Lemma action_one_call (c : command) : one_call (serves c) (action env c).
Proof.
  destruct c as [s | a k s | s | s | k s | a | | a]; cbn [action].
  - unfold put. serve; [repeat quiet | serve].
  - unfold get. serve; [| serve].
    destruct a as [a |]; [destruct (negb (String.eqb a "")) |]; repeat quiet.
    destruct k as [k |]; [destruct (String.eqb k "") |]; repeat quiet.
  - unfold ref. serve; [repeat quiet | serve].
  - unfold encrypt. serve; [repeat quiet | serve].
  - unfold decrypt. serve; [repeat quiet | serve; [repeat quiet | serve]].
  - unfold stat. serve; [| serve]. destruct (given a); repeat quiet.
  - unfold insert. serve; [repeat quiet | serve].
  - unfold cat. serve; [| serve].
    destruct (given a) as [a' |]; [| repeat quiet].
    destruct (base64.DecodeString a') as [bs err].
    apply (guarded_silent
             (fun _ => "Could not decode address '" +++ a' +++ "' as base64-encoded string")).
Qed.

(** The two ways a run ends. *)
Lemma main_shape (dialURL : string) (c : command) (p : Process) :
  (fst (main env dialURL c p) = 1
   /\ stdout (snd (main env dialURL c p)) = stdout p
   /\ (calls (snd (main env dialURL c p)) = calls p
       \/ exists q, calls (snd (main env dialURL c p)) = (calls p ++ [q])%list
                    /\ serves c q = true))
  \/ (fst (main env dialURL c p) = 0
      /\ stderr (snd (main env dialURL c p)) = stderr p
      /\ exists q, calls (snd (main env dialURL c p)) = (calls p ++ [q])%list
                   /\ serves c q = true).
Proof.
  pose proof (andThen_one_call (serves c) _ _ (Before_silent dialURL)
                (fun _ => action_one_call c) p) as Hcalls.
  pose proof (HoarctlFacts.andThen_ok _ _ (HoarctlFacts.Before_ok env dialURL)
                (fun _ => HoarctlFacts.action_ok env c) p) as Herr.
  unfold main. destruct (andThen _ _ p) as [[u | code] p']; cbn [fst snd].
  - right. repeat split; assumption.
  - left. destruct Herr as [-> _]. destruct Hcalls as [Ho Hl]. repeat split; assumption.
Qed.

(** X10. A run issues at most one remote call, the one its command is
    built around, and a run that succeeds has issued exactly that one. *)
Theorem one_remote_call (dialURL : string) (c : command) (p : Process) :
  exists l : list rpc,
    calls (snd (main env dialURL c p)) = (calls p ++ l)%list
    /\ (length l <= 1)%nat
    /\ Forall (fun q => serves c q = true) l
    /\ (fst (main env dialURL c p) = 0 -> length l = 1%nat).
Proof.
  destruct (main_shape dialURL c p)
    as [(H1 & _ & [Hl | (q & Hl & Hq)]) | (H0 & _ & q & Hl & Hq)].
  - exists []. rewrite app_nil_r. repeat split; auto. rewrite H1. discriminate.
  - exists [q]. repeat split; auto.
  - exists [q]. repeat split; auto.
Qed.

(** X11. Only [put] and [insert] ever ask the server to store: a remote
    call that a run of any other command adds is not a storing one. *)
Theorem only_put_and_insert_store (dialURL : string) (c : command) (p : Process)
    (q : rpc) :
  In q (calls (snd (main env dialURL c p))) -> ~ In q (calls p) ->
  stores q = true ->
  (exists saltString, c = PutCmd saltString) \/ c = InsertCmd.
Proof.
  intros Hin Hnew Hstores.
  assert (Hq : serves c q = true).
  { destruct (main_shape dialURL c p)
      as [(_ & _ & [Hl | (q' & Hl & Hq)]) | (_ & _ & q' & Hl & Hq)];
      rewrite Hl in Hin.
    - contradiction.
    - apply in_app_or in Hin as [Hin | [<- | []]]; [contradiction | exact Hq].
    - apply in_app_or in Hin as [Hin | [<- | []]]; [contradiction | exact Hq]. }
  destruct c; destruct q; try discriminate; eauto.
Qed.

(** X12. An ADDRESS argument that is not base64 stops [stat], [cat] and
    [get] with code 1 and a message naming it, before any remote call. *)
Theorem malformed_address_stops (a : string) (bs : slice) (e : error) (p : Process) :
  a <> "" -> base64.DecodeString a = (bs, Some e) ->
  stat env (Some a) p =
    (Exited 1,
     mkProcess (stdout p)
       (stderr p +++ ("Could not decode '" +++ a +++ "' as base64-encoded string") +++ nl)
       (calls p))
  /\ cat env (Some a) p =
    (Exited 1,
     mkProcess (stdout p)
       (stderr p +++ ("Could not decode address '" +++ a +++
                      "' as base64-encoded string") +++ nl)
       (calls p))
  /\ forall k saltString, k <> "" ->
       get env (Some a) (Some k) saltString p =
       (Exited 1,
        mkProcess (stdout p)
          (stderr p +++ ("Could not decode '" +++ a +++ "' as base64-encoded string") +++ nl)
          (calls p)).
Proof.
  intros Ha Hbad. repeat split.
  - unfold stat, given, andThen, readBase64.
    rewrite (HoarctlFacts.eqb_empty _ Ha), Hbad. reflexivity.
  - unfold cat, given, andThen.
    rewrite (HoarctlFacts.eqb_empty _ Ha), Hbad. reflexivity.
  - intros k saltString Hk. unfold get, andThen, readBase64.
    rewrite (HoarctlFacts.eqb_empty _ Ha), (HoarctlFacts.eqb_empty _ Hk), Hbad.
    reflexivity.
Qed.

End Runs.

(** X13. The error of [SplitListenURL] plays no part in a run: the
    [Before] hook overwrites it with the one of the dialer, so that two
    environments that differ in it alone give the same run. *)
Theorem split_error_is_dropped (env : Env) (verdict : string -> option error)
    (dialURL : string) (c : command) (p : Process) :
  main (withSplitError env verdict) dialURL c p = main env dialURL c p.
Proof.
  unfold main, andThen.
  assert (Hb : Before (withSplitError env verdict) dialURL p = Before env dialURL p).
  { unfold Before, withSplitError; cbn [SplitListenURL Dial].
    now destruct (SplitListenURL env dialURL) as [[netProtocol localAddress] err]. }
  rewrite Hb. destruct (Before env dialURL p) as [[u | code] p']; [| reflexivity].
  assert (Ha : action (withSplitError env verdict) c = action env c)
    by (destruct c; reflexivity).
  now rewrite Ha.
Qed.

(** X9. A run that fails has written nothing on STDOUT: the exit code is
    0, 1 (an error the client reports) or 2 (a refused command line), and
    when it is not 0, STDOUT is as the run found it. *)
Theorem failure_leaves_stdout (refusal : commandLine -> string) (env : Env)
    (address : option string) (line : commandLine) (p : Process) :
  fst (Run refusal env address line p) <> 0 ->
  (fst (Run refusal env address line p) = 1 \/ fst (Run refusal env address line p) = 2)
  /\ stdout (snd (Run refusal env address line p)) = stdout p.
Proof.
  unfold Run. destruct (accepts line) as [c |].
  - intros Hcode.
    destruct (main_shape env
                (match address with Some dialURL => dialURL | None => DefaultListenAddress end)
                c p) as [(H1 & Ho & _) | (H0 & _)].
    + split; [now left | exact Ho].
    + contradiction.
  - intros _. split; [now right | reflexivity].
Qed.

Lemma failure_leaves_stdout_witness :
  let refused := Run testing.usage testing.quietEnv None
                   (GetLine None None (Some "aGVsbG8=")) testing.idle in
  let failed := Run testing.usage testing.deafEnv None (StatLine None) testing.idle in
  (fst refused <> 0
   /\ (fst refused = 1 \/ fst refused = 2) /\ stdout (snd refused) = stdout testing.idle)
  /\ (fst failed <> 0
      /\ (fst failed = 1 \/ fst failed = 2) /\ stdout (snd failed) = stdout testing.idle).
Proof.
  intros refused failed.
  assert (H2 : fst refused <> 0) by (vm_compute; discriminate).
  assert (H1 : fst failed <> 0) by (vm_compute; discriminate).
  split.
  - split; [exact H2 |].
    exact (failure_leaves_stdout testing.usage testing.quietEnv None
             (GetLine None None (Some "aGVsbG8=")) testing.idle H2).
  - split; [exact H1 |].
    exact (failure_leaves_stdout testing.usage testing.deafEnv None
             (StatLine None) testing.idle H1).
Defined.

Lemma only_put_and_insert_store_witness :
  let q := CleartextPut (core.mkPlaintext (Some []) None) in
  In q (calls (snd (main testing.quietEnv "tcp://localhost:53431" (PutCmd "")
                      testing.idle)))
  /\ ((exists saltString, PutCmd "" = PutCmd saltString) \/ PutCmd "" = InsertCmd).
Proof.
  intros q.
  assert (H : In q (calls (snd (main testing.quietEnv "tcp://localhost:53431"
                                  (PutCmd "") testing.idle))))
    by (left; reflexivity).
  split; [exact H |].
  exact (only_put_and_insert_store testing.quietEnv "tcp://localhost:53431"
           (PutCmd "") testing.idle q H (fun F : In q [] => F) eq_refl).
Defined.

Lemma malformed_address_stops_witness :
  stat testing.quietEnv (Some "!!") testing.idle =
  (Exited 1,
   mkProcess "" ("" +++ "Could not decode '!!' as base64-encoded string" +++ nl) []).
Proof.
  apply (proj1 (malformed_address_stops testing.quietEnv "!!" (Some [])
                  base64.CorruptInputError testing.idle
                  ltac:(discriminate) eq_refl)).
Defined.

Lemma list_byte_of_string_nil (s : string) : list_byte_of_string s = [] -> s = "".
Proof.
  intros Hs. rewrite <- (string_of_list_byte_of_string s), Hs. reflexivity.
Qed.

Lemma filter_newlines_nil (l : list byte) :
  filter (fun c => negb (base64.isNewline c)) l = [] <->
  forallb base64.isNewline l = true.
Proof.
  induction l as [| c l IH]; [now split |].
  rewrite filter_cons. cbn [forallb].
  destruct (base64.isNewline c); cbn.
  - destruct (decide (Is_true false)) as [[] | _]. exact IH.
  - destruct (decide (Is_true true)) as [_ | Hn]; [| now destruct Hn].
    split; discriminate.
Qed.

Lemma decode_nonempty (l out : list byte) :
  base64.decode l = (out, None) -> l <> [] -> out <> [].
Proof.
  destruct l as [| c0 [| c1 [| c2 [| c3 rest]]]]; cbn [base64.decode];
    try discriminate; [contradiction |].
  intros Hd _.
  destruct (base64.decodeMap c0); [| discriminate].
  destruct (base64.decodeMap c1); [| discriminate].
  destruct (base64.decodeMap c2), (base64.decodeMap c3);
    try destruct (base64.decode rest);
    try destruct (base64.isPad c2 && base64.isPad c3);
    try destruct (base64.isPad c3);
    unfold base64.quantum in Hd; cbn [firstn app] in Hd;
    try discriminate; injection Hd as <- _; discriminate.
Qed.

(** X14. The salt [parseSalt] returns is empty exactly when the salt
    option holds nothing but line breaks (the empty option included):
    any other option gives a salt of at least one byte. *)
Theorem parseSalt_empty_iff (saltString : string) :
  len (parseSalt saltString) = 0%nat <->
  forallb base64.isNewline (list_byte_of_string saltString) = true.
Proof.
  unfold parseSalt.
  destruct (String.eqb_spec saltString "") as [-> | Hs]; [now split |].
  unfold base64.DecodeString.
  destruct (base64.decode _) as [out [e |]] eqn:Hd; cbn [len bytes_of].
  - split.
    + intros Hl. apply length_zero_iff_nil in Hl.
      now apply list_byte_of_string_nil in Hl.
    + intros Hall. apply filter_newlines_nil in Hall. rewrite Hall in Hd. discriminate.
  - split.
    + intros Hl. apply length_zero_iff_nil in Hl. cbn in Hl. subst out.
      apply filter_newlines_nil.
      destruct (filter _ (list_byte_of_string saltString)) as [| c l] eqn:Hf;
        [reflexivity |].
      exfalso. now apply (decode_nonempty _ _ Hd).
    + intros Hall. apply filter_newlines_nil in Hall. rewrite Hall in Hd.
      cbn in Hd. now injection Hd as <-.
Qed.

End ClientRuns.

(** ** Command lines, errors and exit codes *)

Module ClientErrors.
Import hoarctl.
Local Open Scope string_scope.

Ltac open_actions :=
  unfold put, get, ref, encrypt, decrypt, stat, insert, cat, readStdin, check,
    jsonString, println, readBase64, parseReference, nothing_fails, stdinReference,
    given, value, fine, fatalf, andThen, pure, call, exit, write_stdout, write_stderr;
  cbv zeta.

Ltac crack :=
  repeat (cbn [fst snd andb negb];
          match goal with
          | |- context [match ?x with _ => _ end] =>
              lazymatch x with
              | context [match _ with _ => _ end] => fail
              | snd ?y => destruct y
              | fst ?y => destruct y
              | negb ?y => destruct y
              | _ => destruct x
              end
          end);
  cbn [fst snd andb negb].

(** An action returns exactly when nothing it consults fails. *)
Lemma action_returns (env : Env) (c : command) (p : Process) :
  match fst (action env c p) with Returned _ => true | Exited _ => false end
  = nothing_fails env c.
Proof.
  destruct c; cbn [action]; open_actions; crack; reflexivity.
Qed.

Lemma Before_dials (env : Env) (dialURL : string) (p : Process) :
  dials env dialURL = true -> Before env dialURL p = (Returned tt, p).
Proof.
  unfold dials, Before.
  destruct (SplitListenURL env dialURL) as [[netProtocol localAddress] err]. cbn [fst snd].
  now destruct (Dial env dialURL netProtocol localAddress).
Qed.

Lemma Before_fails (env : Env) (dialURL : string) (p : Process) :
  dials env dialURL = false -> exists p', Before env dialURL p = (Exited 1, p').
Proof.
  unfold dials, Before.
  destruct (SplitListenURL env dialURL) as [[netProtocol localAddress] err]. cbn [fst snd].
  destruct (Dial env dialURL netProtocol localAddress); [eauto | discriminate].
Qed.

(** A run that was let in ends with code 0 exactly when the dialer accepts
    the address and nothing the command consults fails. *)
Lemma main_zero_iff (env : Env) (dialURL : string) (c : command) (p : Process) :
  fst (main env dialURL c p) = 0 <-> dials env dialURL && nothing_fails env c = true.
Proof.
  unfold main, andThen. destruct (dials env dialURL) eqn:Hd.
  - rewrite (Before_dials env dialURL p Hd). cbn [andb].
    pose proof (action_returns env c p) as Hr.
    pose proof (HoarctlFacts.action_ok env c p) as Hok.
    destruct (action env c p) as [[u | code] p']; cbn [fst] in *.
    + now rewrite <- Hr.
    + rewrite <- Hr. destruct Hok as [-> _]. split; discriminate.
  - destruct (Before_fails env dialURL p Hd) as [p' ->]. cbn. split; discriminate.
Qed.

(** The two ways a run that was let in ends. *)
Lemma main_ends (env : Env) (dialURL : string) (c : command) (p : Process) :
  (fst (main env dialURL c p) = 0
   /\ stderr (snd (main env dialURL c p)) = stderr p
   /\ dials env dialURL && nothing_fails env c = true)
  \/ (fst (main env dialURL c p) = 1
      /\ (exists msg, stderr (snd (main env dialURL c p)) = stderr p +++ msg +++ nl)
      /\ dials env dialURL && nothing_fails env c = false).
Proof.
  pose proof (main_zero_iff env dialURL c p) as Hiff.
  destruct (HoarctlFacts.main_ok env dialURL c p) as [[H0 He] | [H1 He]].
  - left. repeat split; [exact H0 | exact He | now apply Hiff].
  - right. repeat split; [exact H1 | exact He |].
    destruct (dials env dialURL && nothing_fails env c); [| reflexivity].
    destruct Hiff as [_ Hiff]. rewrite (Hiff eq_refl) in H1. discriminate.
Qed.

Lemma Run_refused (refusal : commandLine -> string) (env : Env)
    (address : option string) (line : commandLine) (p : Process) :
  accepts line = None ->
  Run refusal env address line p
  = (2, mkProcess (stdout p) (stderr p +++ refusal line) (calls p)).
Proof. unfold Run. now intros ->. Qed.

Lemma Run_accepted (refusal : commandLine -> string) (env : Env)
    (address : option string) (line : commandLine) (c : command) (p : Process) :
  accepts line = Some c ->
  Run refusal env address line p
  = main env (match address with Some dialURL => dialURL | None => DefaultListenAddress end)
      c p.
Proof. unfold Run. now intros ->. Qed.

Lemma get_with_empty_key (refusal : commandLine -> string) (env : Env)
    (address salt : option string) (a : string) (p : Process) :
  a <> "" ->
  dials env (match address with Some dialURL => dialURL | None => DefaultListenAddress end)
  = true ->
  Run refusal env address (GetLine (Some "") salt (Some a)) p
  = (1, mkProcess (stdout p)
          (stderr p +++ "A secret key must be provided in order to decrypt." +++ nl)
          (calls p)).
Proof.
  intros Ha Hd.
  rewrite (Run_accepted refusal env address (GetLine (Some "") salt (Some a))
             (GetCmd (Some a) (Some "") (value salt)) p eq_refl).
  unfold main, andThen. rewrite (Before_dials env _ p Hd). cbn [action].
  now rewrite (HoarctlFacts.get_without_key env a (Some "") (value salt) p Ha
                 (or_intror eq_refl)).
Qed.

(** C8. The errors the client detects itself go through
    [fatalf], which writes the message and a newline on STDERR and exits
    with code 1: for a listen address that [SplitListenURL] accepts, a run
    that was let in ends with code 0 and nothing on STDERR when the dialer
    accepts the address and nothing the command consults fails, and with
    code 1 and one message line on STDERR otherwise. A command line that
    does not fit the Spec of its command is refused before anything is run,
    with the usage text on STDERR and code 2: so is [get] with an ADDRESS
    and no [--key]; with an empty [--key] it is let in and ends with code 1
    and the message asking for a secret key, before any remote call. *)
Theorem errors_exit_one_refusals_two (refusal : commandLine -> string) (env : Env) :
  (forall (A : Type) (msg : string) (p : Process),
      @fatalf A msg p =
      (Exited 1, mkProcess (stdout p) (stderr p +++ msg +++ nl) (calls p)))
  /\ (forall (address : option string) (line : commandLine) (p : Process),
      accepts line = None ->
      Run refusal env address line p
      = (2, mkProcess (stdout p) (stderr p +++ refusal line) (calls p)))
  /\ (forall (address : option string) (line : commandLine) (c : command) (p : Process),
      let dialURL :=
        match address with Some dialURL => dialURL | None => DefaultListenAddress end in
      accepts line = Some c ->
      snd (SplitListenURL env dialURL) = None ->
      (fst (Run refusal env address line p) = 0
       /\ stderr (snd (Run refusal env address line p)) = stderr p
       /\ dials env dialURL && nothing_fails env c = true)
      \/ (fst (Run refusal env address line p) = 1
          /\ (exists msg,
                stderr (snd (Run refusal env address line p)) = stderr p +++ msg +++ nl)
          /\ dials env dialURL && nothing_fails env c = false))
  /\ (forall (address salt : option string) (a : string) (p : Process),
      Run refusal env address (GetLine None salt (Some a)) p
      = (2, mkProcess (stdout p)
              (stderr p +++ refusal (GetLine None salt (Some a))) (calls p)))
  /\ (forall (address salt : option string) (a : string) (p : Process),
      let dialURL :=
        match address with Some dialURL => dialURL | None => DefaultListenAddress end in
      a <> "" ->
      snd (SplitListenURL env dialURL) = None ->
      dials env dialURL = true ->
      Run refusal env address (GetLine (Some "") salt (Some a)) p
      = (1, mkProcess (stdout p)
              (stderr p +++ "A secret key must be provided in order to decrypt." +++ nl)
              (calls p))).
Proof.
  split; [| split; [| split; [| split]]].
  - intros. apply HoarctlFacts.fatalf_unfold.
  - intros address line p. apply Run_refused.
  - intros address line c p dialURL Hline _.
    rewrite (Run_accepted refusal env address line c p Hline). apply main_ends.
  - intros address salt a p. apply Run_refused. now destruct salt.
  - intros address salt a p dialURL Ha _ Hd. now apply get_with_empty_key.
Qed.

(** [get] with an ADDRESS and no [--key] does not end with the code 1 of
    [fatalf]: the command line is refused with code 2, nothing of the
    action being run. *)
Lemma get_address_without_key_exits_two :
  fst (Run testing.usage testing.quietEnv None (GetLine None None (Some "aGVsbG8="))
         testing.idle) = 2
  /\ fst (Run testing.usage testing.quietEnv None (GetLine None None (Some "aGVsbG8="))
            testing.idle) <> 1
  /\ stderr (snd (Run testing.usage testing.quietEnv None
                     (GetLine None None (Some "aGVsbG8=")) testing.idle))
     <> "A secret key must be provided in order to decrypt." +++ nl.
Proof. repeat split; vm_compute; discriminate. Qed.

Lemma errors_exit_one_refusals_two_witness :
  Run testing.usage testing.quietEnv None (DecryptLine None None) testing.idle
  = (2, mkProcess "" ("" +++ testing.usage (DecryptLine None None)) [])
  /\ fst (Run testing.usage testing.quietEnv None (StatLine None) testing.idle) = 0
  /\ fst (Run testing.usage testing.deafEnv None (StatLine None) testing.idle) = 1
  /\ Run testing.usage testing.quietEnv None (GetLine (Some "") None (Some "aGVsbG8="))
       testing.idle
     = (1, mkProcess "" ("" +++ "A secret key must be provided in order to decrypt." +++ nl)
             []).
Proof.
  destruct (errors_exit_one_refusals_two testing.usage testing.quietEnv)
    as (_ & Hrefused & Haccepted & _ & Hempty).
  destruct (errors_exit_one_refusals_two testing.usage testing.deafEnv)
    as (_ & _ & Hdeaf & _).
  split; [| split; [| split]].
  - apply (Hrefused None (DecryptLine None None) testing.idle). reflexivity.
  - destruct (Haccepted None (StatLine None) (StatCmd (Some "")) testing.idle
                eq_refl eq_refl)
      as [(H0 & _) | (_ & _ & Hfails)]; [exact H0 | discriminate Hfails].
  - destruct (Hdeaf None (StatLine None) (StatCmd (Some "")) testing.idle
                eq_refl eq_refl)
      as [(_ & _ & Hfine) | (H1 & _)]; [discriminate Hfine | exact H1].
  - apply (Hempty None None "aGVsbG8=" testing.idle);
      [discriminate | reflexivity | reflexivity].
Defined.

End ClientErrors.
